(** * The gralloc4 buffer registry: [BufferManager] of
    [gralloc4/src/core/mali_gralloc_reference.cpp]

    A shallow embedding of the reference-counted registry of imported buffer
    handles (retain / map / release / validate), and the properties of it that
    the specification states.

    The four public operations take the registry lock for their whole
    duration ([std::lock_guard]); they are modelled as atomic transitions of
    one sequential state, the [World]. *)

From Stdlib Require Import ZArith Lia List.
From stdpp Require Import base numbers option list gmap.

Local Open Scope Z_scope.

(* ===================================================================== *)
(** ** Machine integers *)

(** [uint64_t] arithmetic ([ref_count]) wraps modulo [2^64]. *)
Definition wrap_u64 (z : Z) : Z := z mod 2 ^ 64.

(** Two's-complement reading of the low 64 bits: the value of an [off_t]
    (a 64-bit signed integer), used for the cast [(off_t)allocated_size] and
    for the difference of two [off_t]. *)
Definition wrap_s64 (z : Z) : Z := (z + 2 ^ 63) mod 2 ^ 64 - 2 ^ 63.

Definition EINVAL : Z := 22.

(* ===================================================================== *)
(** ** Data *)

(** A handle is identified by its address ([const private_handle_t *]). *)
Abbreviation addr := N.

(** C arrays are lists read by index; [aget] is [a[i]]. *)
Definition aget (a : list Z) (i : nat) : Z := default 0 (a !! i).

(** The fields of [private_handle_t] that the registry reads or writes. *)
Record private_handle_t : Type := mk_handle {
  fds : list Z;          (* int fds[MAX_FDS], -1 marks an unused slot *)
  fd_count : Z;          (* int fd_count *)
  alloc_sizes : list Z;  (* uint64_t alloc_sizes[MAX_BUFFER_FDS] *)
  attr_size : Z;         (* uint64_t attr_size *)
  bases : list Z;        (* uint64_t bases[MAX_BUFFER_FDS], scratch *)
  attr_base : Z          (* void *attr_base, scratch *)
}.

Definition set_bases (b : list Z) (hnd : private_handle_t) : private_handle_t :=
  mk_handle (fds hnd) (fd_count hnd) (alloc_sizes hnd) (attr_size hnd) b (attr_base hnd).

Definition set_attr_base (p : Z) (hnd : private_handle_t) : private_handle_t :=
  mk_handle (fds hnd) (fd_count hnd) (alloc_sizes hnd) (attr_size hnd) (bases hnd) p.

(** [struct MappedData]. *)
Record MappedData : Type := mk_data {
  data_bases : list Z;        (* void *bases[MAX_BUFFER_FDS] = {} *)
  data_alloc_sizes : list Z;  (* size_t alloc_sizes[MAX_BUFFER_FDS] = {} *)
  ref_count : Z               (* uint64_t ref_count = 0 *)
}.

Definition set_ref_count (c : Z) (d : MappedData) : MappedData :=
  mk_data (data_bases d) (data_alloc_sizes d) c.

Inductive whence : Type := SEEK_SET | SEEK_CUR | SEEK_END.

(** Calls that leave the process, in the order they are made. *)
Inductive event : Type :=
| EvLseek (fd offset : Z) (w : whence)
| EvIonMap (handle : addr)
| EvIonUnmap (handle : addr)
| EvMunmap (base size : Z).

#[global] Instance whence_eq_dec : EqDecision whence.
Proof. solve_decision. Defined.

#[global] Instance event_eq_dec : EqDecision event.
Proof. solve_decision. Defined.

(** The state the registry lock protects, together with the handle objects
    the registry reaches through the pointers it is given. *)
Record World : Type := mk_world {
  handles : gmap N private_handle_t;     (* handle objects, by address *)
  buffer_map : gmap N MappedData;        (* std::map<handle*, unique_ptr<MappedData>> *)
  trace : list event
}.

Definition upd_handles (f : gmap N private_handle_t → gmap N private_handle_t)
    (w : World) : World :=
  mk_world (f (handles w)) (buffer_map w) (trace w).

Definition upd_buffer_map (f : gmap N MappedData → gmap N MappedData)
    (w : World) : World :=
  mk_world (handles w) (f (buffer_map w)) (trace w).

Definition log (e : event) (w : World) : World :=
  mk_world (handles w) (buffer_map w) (trace w ++ [e]).

(* ===================================================================== *)
(** ** What the file takes from its headers and from the system *)

(** Modelled from the spec: the constants [MAX_BUFFER_FDS], [MAX_FDS] and
    [PAGE_SIZE], the handle's own check [private_handle_t::validate] and its
    accessor [get_share_attr_fd] (mali_gralloc_buffer.h), the mapper
    [mali_gralloc_ion_map] / [mali_gralloc_ion_unmap] (mali_gralloc_ion.h) and
    [lseek] are declared outside this file.  They are parameters here.  The
    mapper follows its contract in the spec: it writes the scratch slots
    [bases] of the handle it is given and nothing else; the addresses it
    chooses may depend on everything that happened before. *)
Class Platform : Type := {
  MAX_BUFFER_FDS : nat;
  MAX_FDS : nat;
  PAGE_SIZE : Z;
  private_handle_validate : private_handle_t → Z;
  get_share_attr_fd : private_handle_t → Z;
  lseek_result : Z → Z → whence → Z;
  ion_map : list event → private_handle_t → Z * list Z;
  ion_unmap : list event → private_handle_t → Z * list Z
}.

(* ===================================================================== *)
(** ** A state monad with a fault for a dereference of a pointer that
    points at no handle *)

Definition M (A : Type) : Type := World → option (A * World).

Definition ret {A} (a : A) : M A := λ w, Some (a, w).

Definition bind {A B} (c : M A) (k : A → M B) : M B :=
  λ w, match c w with
       | Some (a, w') => k a w'
       | None => None
       end.

Notation "x <- c ;; k" := (bind c (λ x, k))
  (at level 20, c at level 99, k at level 200, only parsing).

Definition gets {A} (f : World → A) : M A := λ w, Some (f w, w).
Definition modify (f : World → World) : M unit := λ w, Some (tt, f w).

(** [*handle] *)
Definition load (handle : addr) : M private_handle_t :=
  λ w, match handles w !! handle with
       | Some hnd => Some (hnd, w)
       | None => None
       end.

Definition store (handle : addr) (hnd : private_handle_t) : M unit :=
  modify (upd_handles <[handle := hnd]>).

(** [buffer_map.find(hnd)]; [None] is [buffer_map.end()]. *)
Definition find (handle : addr) : M (option MappedData) :=
  gets (λ w, buffer_map w !! handle).

(** [buffer_map.insert({hnd, data})]: nothing is inserted over a key that is
    present, and the flag says which. *)
Definition insert_record (handle : addr) (d : MappedData) : M bool :=
  λ w, match buffer_map w !! handle with
       | Some _ => Some (false, w)
       | None => Some (true, upd_buffer_map <[handle := d]> w)
       end.

(** A write through the reference [data = *(it->second)]. *)
Definition write_record (handle : addr) (d : MappedData) : M unit :=
  modify (upd_buffer_map <[handle := d]>).

(** [buffer_map.erase(it)] *)
Definition erase (handle : addr) : M unit :=
  modify (upd_buffer_map (delete handle)).

Definition emit (e : event) : M unit := modify (log e).

(** Loops [for (i = from; i < from + n; i++) a[i] = f i]. *)
Fixpoint fill (f : nat → Z) (from n : nat) (a : list Z) : list Z :=
  match n with
  | O => a
  | S n' => fill f (S from) n' (<[from := f from]> a)
  end.

(** Loops [for (i = from; i < from + n; i++) if (!ok i) return false;]. *)
Fixpoint all_from (ok : nat → bool) (from n : nat) : bool :=
  match n with
  | O => true
  | S n' => if ok from then all_from ok (S from) n' else false
  end.

(** [std::find(a, a + n, x) - a]: the index of the first [x], or [n]. *)
Fixpoint find_from (a : list Z) (x : Z) (from n : nat) : nat :=
  match n with
  | O => from
  | S n' => if decide (aget a from = x) then from else find_from a x (S from) n'
  end.

Definition std_find (a : list Z) (n : nat) (x : Z) : nat := find_from a x 0 n.

Section BufferManager.
Context `{P : Platform}.

(** Modelled from the spec: [private_handle_t::validate(handle)] is declared
    in mali_gralloc_buffer.h.  It is the check [private_handle_validate] of
    the platform on the handle that [handle] points at; a pointer at no handle
    is refused before any field is looked at. *)
Definition validate_ptr (handle : addr) : M Z :=
  gets (λ w, match handles w !! handle with
             | Some hnd => private_handle_validate hnd
             | None => - EINVAL
             end).

Definition lseek (fd offset : Z) (wh : whence) : M Z :=
  _ <- emit (EvLseek fd offset wh) ;;
  ret (lseek_result fd offset wh).

Definition munmap (base size : Z) : M unit := emit (EvMunmap base size).

Definition mali_gralloc_ion_map (handle : addr) : M Z :=
  hnd <- load handle ;;
  tr <- gets trace ;;
  _ <- emit (EvIonMap handle) ;;
  _ <- store handle (set_bases (snd (ion_map tr hnd)) hnd) ;;
  ret (fst (ion_map tr hnd)).

Definition mali_gralloc_ion_unmap (handle : addr) : M Z :=
  hnd <- load handle ;;
  tr <- gets trace ;;
  _ <- emit (EvIonUnmap handle) ;;
  _ <- store handle (set_bases (snd (ion_unmap tr hnd)) hnd) ;;
  ret (fst (ion_unmap tr hnd)).

(** [get_buffer_size].  The descriptor goes through [unsigned int] and
    back to [int], which gives the same descriptor. *)
Definition get_buffer_size (fd : Z) : M Z :=
  current <- lseek fd 0 SEEK_CUR ;;
  size <- lseek fd 0 SEEK_END ;;
  _ <- lseek fd current SEEK_SET ;;
  ret size.

(** The lambda [check_pid] of [dmabuf_sanity_check]. *)
Definition check_pid (fd allocated_size : Z) : M bool :=
  size <- get_buffer_size fd ;;
  let size_padding := wrap_s64 (size - wrap_s64 allocated_size) in
  if bool_decide (size ≠ -1) && ((size_padding <? 0) || (PAGE_SIZE <? size_padding))
  then ret false
  else ret true.

(** The loop over the client facing dmabufs, with its early return. *)
Fixpoint check_client_fds (hnd : private_handle_t) (i n : nat) : M bool :=
  match n with
  | O => ret true
  | S n' =>
      ok <- check_pid (aget (fds hnd) i) (aget (alloc_sizes hnd) i) ;;
      if ok then check_client_fds hnd (S i) n' else ret false
  end.

Definition dmabuf_sanity_check (handle : addr) : M bool :=
  hnd <- load handle ;;
  let valid_fd_count := Z.of_nat (std_find (fds hnd) MAX_FDS (-1)) in
  if decide (fd_count hnd ≠ valid_fd_count - 1) then ret false else
  ok <- check_client_fds hnd 0 (Z.to_nat (fd_count hnd)) ;;
  if negb ok then ret false else
  ok_meta <- check_pid (get_share_attr_fd hnd) (attr_size hnd) ;;
  if negb ok_meta then ret false else
  ret true.

Definition map_locked (handle : addr) : M Z :=
  it <- find handle ;;
  match it with
  | None => ret (- EINVAL)
  | Some data =>
      (* data.ref_count == 0 is logged and nothing else *)
      if decide (aget (data_bases data) 0 ≠ 0) then ret 0 else
      ok <- dmabuf_sanity_check handle ;;
      if negb ok then ret (- EINVAL) else
      error <- mali_gralloc_ion_map handle ;;
      if decide (error ≠ 0) then ret error else
      hnd <- load handle ;;
      _ <- write_record handle
        (mk_data (fill (aget (bases hnd)) 0 MAX_BUFFER_FDS (data_bases data))
                 (fill (aget (alloc_sizes hnd)) 0 MAX_BUFFER_FDS (data_alloc_sizes data))
                 (ref_count data)) ;;
      ret 0
  end.

Definition validate_locked (handle : addr) : M Z :=
  v <- validate_ptr handle ;;
  if decide (v < 0) then ret (- EINVAL) else
  it <- find handle ;;
  match it with
  | None => ret (- EINVAL)
  | Some data =>
      hnd <- load handle ;;
      if decide (aget (data_bases data) 0 ≠ 0) then
        if all_from (λ i, negb (bool_decide (aget (data_bases data) i ≠ aget (bases hnd) i)
                                || bool_decide (aget (data_alloc_sizes data) i
                                                ≠ aget (alloc_sizes hnd) i)))
                    0 MAX_BUFFER_FDS
        then ret 0 else ret (- EINVAL)
      else
        if all_from (λ i, negb (bool_decide (aget (bases hnd) i ≠ 0)
                                || bool_decide (aget (data_bases data) i ≠ 0)))
                    0 MAX_BUFFER_FDS
        then ret 0 else ret (- EINVAL)
  end.

(** [std::make_unique<MappedData>()] *)
Definition new_MappedData : MappedData :=
  mk_data (replicate MAX_BUFFER_FDS 0) (replicate MAX_BUFFER_FDS 0) 0.

Definition retain (handle : addr) : M Z :=
  v <- validate_ptr handle ;;
  if decide (v < 0) then ret (- EINVAL) else
  it <- find handle ;;
  it <-
    match it with
    | None =>
        success <- insert_record handle new_MappedData ;;
        if negb success then ret None else
        hnd <- load handle ;;
        _ <- store handle (set_bases (fill (λ _, 0) 0 MAX_BUFFER_FDS (bases hnd)) hnd) ;;
        ret (Some new_MappedData)
    | Some data =>
        (* it->second->ref_count == 0 is logged and nothing else *)
        ret (Some data)
    end ;;
  match it with
  | None => ret (- EINVAL)   (* the return under [if (!success)] *)
  | Some data =>
      _ <- write_record handle (set_ref_count (wrap_u64 (ref_count data + 1)) data) ;;
      ret 0
  end.

Definition map (handle : addr) : M Z :=
  error <- validate_locked handle ;;
  if decide (error ≠ 0) then ret error else
  map_locked handle.

Definition release (handle : addr) : M Z :=
  error <- validate_locked handle ;;
  if decide (error ≠ 0) then ret error else
  it <- find handle ;;
  match it with
  | None => ret (- EINVAL)
  | Some data =>
      if decide (ref_count data = 0) then ret (- EINVAL) else
      let data' := set_ref_count (wrap_u64 (ref_count data - 1)) data in
      _ <- write_record handle data' ;;
      if decide (ref_count data' = 0) then
        _ <- (if decide (aget (data_bases data') 0 ≠ 0)
         then _ <- mali_gralloc_ion_unmap handle ;; ret tt
         else ret tt) ;;
        hnd <- load handle ;;
        _ <- (if decide (attr_base hnd ≠ 0)
         then _ <- munmap (attr_base hnd) (attr_size hnd) ;;
              store handle (set_attr_base 0 hnd)
         else ret tt) ;;
        _ <- erase handle ;;
        ret 0
      else ret 0
  end.

Definition validate (handle : addr) : M Z := validate_locked handle.

End BufferManager.

(* ===================================================================== *)
(** ** Sequences of calls *)

Inductive op : Type :=
| Retain (handle : addr)
| Map (handle : addr)
| Release (handle : addr)
| Validate (handle : addr).

#[global] Instance op_eq_dec : EqDecision op.
Proof. solve_decision. Defined.

Definition exec `{P : Platform} (o : op) : M Z :=
  match o with
  | Retain h => retain h
  | Map h => map h
  | Release h => release h
  | Validate h => validate h
  end.

(** The calls of [ops] one after the other; the result is the list of what
    they returned. *)
Fixpoint run `{P : Platform} (ops : list op) : M (list Z) :=
  match ops with
  | [] => ret []
  | o :: ops' =>
      r <- exec o ;;
      rs <- run ops' ;;
      ret (r :: rs)
  end.

(** How many calls [o] of [ops] returned 0. *)
Fixpoint successes (o : op) (ops : list op) (rs : list Z) : Z :=
  match ops, rs with
  | o' :: ops', r :: rs' =>
      (if bool_decide (o' = o ∧ r = 0) then 1 else 0) + successes o ops' rs'
  | _, _ => 0
  end.

(** How many times the mapper was asked to map [handle]. *)
Definition ion_map_calls (handle : addr) (tr : list event) : nat :=
  length (filter (λ e, e = EvIonMap handle) tr).

(** The handle a call is made on. *)
Definition op_handle (o : op) : addr :=
  match o with
  | Retain h | Map h | Release h | Validate h => h
  end.

(** The entry points of the file.  [BufferManager::getInstance()] is the one
    registry of the process: the one [World]. *)
Definition mali_gralloc_reference_retain `{P : Platform} (handle : addr) : M Z :=
  retain handle.

Definition mali_gralloc_reference_map `{P : Platform} (handle : addr) : M Z :=
  map handle.

Definition mali_gralloc_reference_release `{P : Platform} (handle : addr) : M Z :=
  release handle.

Definition mali_gralloc_reference_validate `{P : Platform} (handle : addr) : M Z :=
  validate handle.

(* ===================================================================== *)
(** ** The predicates of the specification *)

Section Predicates.
Context `{P : Platform}.

(** A record is in the mapped state when its first cached address is set. *)
Definition record_mapped (d : MappedData) : Prop := aget (data_bases d) 0 ≠ 0.

#[global] Instance record_mapped_dec (d : MappedData) : Decision (record_mapped d).
Proof. unfold record_mapped. apply _. Defined.

Definition is_lseek (e : event) : Prop :=
  match e with EvLseek _ _ _ => True | _ => False end.

(** [w'] is [w] after some calls of [lseek] and nothing else. *)
Definition lseek_only (w w' : World) : Prop :=
  handles w' = handles w ∧ buffer_map w' = buffer_map w
  ∧ ∃ evs, trace w' = trace w ++ evs ∧ Forall is_lseek evs.

(** The reference count of [handle], 0 when it has no record. *)
Definition refs (w : World) (handle : addr) : Z :=
  match buffer_map w !! handle with
  | Some d => ref_count d
  | None => 0
  end.

(** The record of [handle], when there is one, counts at least one
    reference, within [uint64_t]. *)
Definition counted (w : World) (handle : addr) : Prop :=
  match buffer_map w !! handle with
  | Some d => 1 ≤ ref_count d < 2 ^ 64
  | None => True
  end.

Definition well_formed (hnd : private_handle_t) : Prop :=
  ¬ private_handle_validate hnd < 0.

(** What [private_handle_t::validate] refuses: a pointer at no handle, or
    a handle that fails its own check. *)
Definition ill_formed (w : World) (handle : addr) : Prop :=
  match handles w !! handle with
  | Some hnd => private_handle_validate hnd < 0
  | None => True
  end.

(** A reported length is unknown, or between the advertised size and one
    page more. *)
Definition length_within (len advertised : Z) : Prop :=
  len = -1 ∨ advertised ≤ len ≤ advertised + PAGE_SIZE.

Definition lengths_within (hnd : private_handle_t) : Prop :=
  (∀ i : nat, Z.of_nat i < fd_count hnd →
     length_within (lseek_result (aget (fds hnd) i) 0 SEEK_END) (aget (alloc_sizes hnd) i))
  ∧ length_within (lseek_result (get_share_attr_fd hnd) 0 SEEK_END) (attr_size hnd).

(** What [check_pid] answers for a descriptor of length [size]. *)
Definition size_accepted (size allocated_size : Z) : bool :=
  let size_padding := wrap_s64 (size - wrap_s64 allocated_size) in
  negb (bool_decide (size ≠ -1) && ((size_padding <? 0) || (PAGE_SIZE <? size_padding))).

(** The count of entries of [fds] that are not the sentinel. *)
Definition non_sentinel_count (hnd : private_handle_t) : Z :=
  Z.of_nat (length (filter (λ fd, fd ≠ -1) (take MAX_FDS (fds hnd)))).

(** The number of entries of [fds] before the first sentinel. *)
Definition sentinel_prefix (hnd : private_handle_t) : Z :=
  Z.of_nat (std_find (fds hnd) MAX_FDS (-1)).

(** The arrays of every record have [MAX_BUFFER_FDS] slots. *)
Definition records_laid_out (w : World) : Prop :=
  ∀ handle d, buffer_map w !! handle = Some d →
    length (data_bases d) = MAX_BUFFER_FDS ∧ length (data_alloc_sizes d) = MAX_BUFFER_FDS.

(** The handle's own check does not look at the scratch slots. *)
Definition validate_ignores_bases : Prop :=
  ∀ hnd b, private_handle_validate (set_bases b hnd) = private_handle_validate hnd.

(** The sanity check in the words of the specification. *)
Definition sanity_as_stated (hnd : private_handle_t) : Prop :=
  non_sentinel_count hnd = fd_count hnd + 1 ∧ lengths_within hnd.

(** The same with the descriptors counted up to the first sentinel. *)
Definition sanity_accepts (hnd : private_handle_t) : Prop :=
  sentinel_prefix hnd = fd_count hnd + 1 ∧ lengths_within hnd.

(** The advertised sizes that the cast to [off_t] leaves as they are. *)
Definition sizes_fit_off_t (hnd : private_handle_t) : Prop :=
  (∀ i : nat, Z.of_nat i < fd_count hnd → 0 ≤ aget (alloc_sizes hnd) i < 2 ^ 63)
  ∧ 0 ≤ attr_size hnd < 2 ^ 63.

(** [lseek] gives a length, which is not negative, or -1. *)
Definition lseek_in_range : Prop :=
  ∀ fd offset, -1 ≤ lseek_result fd offset SEEK_END < 2 ^ 63.

(** Slot [i] of the handle mirrors slot [i] of the record. *)
Definition slot_matches (hnd : private_handle_t) (d : MappedData) (i : nat) : Prop :=
  aget (bases hnd) i = aget (data_bases d) i
  ∧ aget (alloc_sizes hnd) i = aget (data_alloc_sizes d) i.

Definition slot_clear (hnd : private_handle_t) (d : MappedData) (i : nat) : Prop :=
  aget (bases hnd) i = 0 ∧ aget (data_bases d) i = 0.

(** The validator in the words of the specification: in the mapped state
    the regions in use, those of the [fd_count] client facing descriptors,
    are compared. *)
Definition validator_as_stated (w : World) (handle : addr) : Prop :=
  ∃ hnd d,
    handles w !! handle = Some hnd ∧ well_formed hnd ∧
    buffer_map w !! handle = Some d ∧
    (record_mapped d →
       ∀ i : nat, (i < MAX_BUFFER_FDS)%nat → Z.of_nat i < fd_count hnd → slot_matches hnd d i) ∧
    (¬ record_mapped d → ∀ i : nat, (i < MAX_BUFFER_FDS)%nat → slot_clear hnd d i).

(** The same with every slot compared in the mapped state. *)
Definition validator_accepts (w : World) (handle : addr) : Prop :=
  ∃ hnd d,
    handles w !! handle = Some hnd ∧ well_formed hnd ∧
    buffer_map w !! handle = Some d ∧
    (record_mapped d → ∀ i : nat, (i < MAX_BUFFER_FDS)%nat → slot_matches hnd d i) ∧
    (¬ record_mapped d → ∀ i : nat, (i < MAX_BUFFER_FDS)%nat → slot_clear hnd d i).

(** The reference count law in the words of the specification, for one
    sequence of calls from a state in which [handle] has no record. *)
Definition ref_count_law (ops : list op) (w : World) (handle : addr) : Prop :=
  ∀ rs w',
    buffer_map w !! handle = None →
    run ops w = Some (rs, w') →
    let k := successes (Retain handle) ops rs in
    let j := successes (Release handle) ops rs in
    j ≤ k →
    (is_Some (buffer_map w' !! handle) ↔ j < k) ∧
    (∀ d, buffer_map w' !! handle = Some d → ref_count d = k - j).

End Predicates.

(* ===================================================================== *)
(** ** A platform and a handle to run the registry on *)

Module Demo.

(** Three client facing regions at most, four descriptors, 4 KiB pages. *)
Definition validate (hnd : private_handle_t) : Z :=
  if decide (0 < fd_count hnd < 4) then 0 else - EINVAL.

Definition attr_fd (hnd : private_handle_t) : Z :=
  aget (fds hnd) (Z.to_nat (fd_count hnd)).

(** Descriptors 10 and 11 are 4096 bytes long, 12 is 16384 bytes long, 13 is
    empty, nothing else is open. *)
Definition lseek_oracle (fd offset : Z) (wh : whence) : Z :=
  match wh with
  | SEEK_SET => offset
  | SEEK_CUR => if decide (10 ≤ fd ≤ 13) then 0 else -1
  | SEEK_END =>
      if decide (fd = 10 ∨ fd = 11) then 4096
      else if decide (fd = 12) then 16384
      else if decide (fd = 13) then 0
      else -1
  end.

Definition mapper (tr : list event) (hnd : private_handle_t) : Z * list Z :=
  (0, fill (λ i, if decide (Z.of_nat i < fd_count hnd)
                 then 1048576 * (Z.of_nat (length tr) + 1) + 65536 * Z.of_nat i
                 else 0)
           0 3 (bases hnd)).

Definition unmapper (tr : list event) (hnd : private_handle_t) : Z * list Z :=
  (0, replicate 3 0).

Definition platform : Platform :=
  {| MAX_BUFFER_FDS := 3;
     MAX_FDS := 4;
     PAGE_SIZE := 4096;
     private_handle_validate := validate;
     get_share_attr_fd := attr_fd;
     lseek_result := lseek_oracle;
     ion_map := mapper;
     ion_unmap := unmapper |}.

(** One client facing region of 4096 bytes, metadata of 4096 bytes, and
    addresses left in the scratch slots by another process. *)
Definition H : private_handle_t :=
  mk_handle [10; 11; -1; -1] 1 [4096; 0; 0] 4096 [77; 0; 88] 0.

Definition h : addr := 64%N.

Definition w0 : World := mk_world {[ h := H ]} ∅ [].

(** [h] registered [c] times and not mapped. *)
Definition registered (c : Z) : World :=
  mk_world {[ h := set_bases [0; 0; 0] H ]} {[ h := mk_data [0; 0; 0] [0; 0; 0] c ]} [].

(** [h] registered once and mapped at 1048576, its metadata mapped at
    4194304. *)
Definition H_mapped : private_handle_t :=
  set_attr_base 4194304 (set_bases [1048576; 0; 0] H).

Definition w_mapped : World :=
  mk_world {[ h := H_mapped ]}
           {[ h := mk_data [1048576; 0; 0] [4096; 0; 0] 1 ]}
           [EvIonMap h].

(** As [w_mapped], with slot 2 of the handle, which no region uses,
    overwritten. *)
Definition w_slot2 : World :=
  mk_world {[ h := set_bases [1048576; 0; 5] H ]}
           {[ h := mk_data [1048576; 0; 0] [4096; 0; 0] 1 ]}
           [EvIonMap h].

(** [h] registered once, not mapped, with slot 1 of the handle overwritten. *)
Definition w_tampered : World :=
  mk_world {[ h := set_bases [0; 9; 0] H ]} {[ h := mk_data [0; 0; 0] [0; 0; 0] 1 ]} [].

(** A handle that advertises 4096 bytes over descriptor 12, which is 16384
    bytes long, registered once; and the same after the sanity check. *)
Definition H_big : private_handle_t :=
  mk_handle [12; 11; -1; -1] 1 [4096; 0; 0] 4096 [0; 0; 0] 0.

Definition w_big : World :=
  mk_world {[ h := H_big ]} {[ h := mk_data [0; 0; 0] [0; 0; 0] 1 ]} [].

Definition w_big_checked : World :=
  mk_world {[ h := H_big ]} {[ h := mk_data [0; 0; 0] [0; 0; 0] 1 ]}
           [EvLseek 12 0 SEEK_CUR; EvLseek 12 0 SEEK_END; EvLseek 12 0 SEEK_SET].

(** [registered 1] after [map]: the sanity check has looked at descriptors
    10 and 11, and the mapper has put the region at 7340032. *)
Definition w_after_map : World :=
  mk_world {[ h := set_bases [7340032; 0; 0] H ]}
           {[ h := mk_data [7340032; 0; 0] [4096; 0; 0] 1 ]}
           [EvLseek 10 0 SEEK_CUR; EvLseek 10 0 SEEK_END; EvLseek 10 0 SEEK_SET;
            EvLseek 11 0 SEEK_CUR; EvLseek 11 0 SEEK_END; EvLseek 11 0 SEEK_SET;
            EvIonMap h].

(** A handle that advertises [2^64 - 4096] bytes over descriptor 13, which is
    empty. *)
Definition H_wrap : private_handle_t :=
  mk_handle [13; 11; -1; -1] 1 [2 ^ 64 - 4096; 0; 0] 4096 [0; 0; 0] 0.

Definition w_wrap : World := mk_world {[ h := H_wrap ]} ∅ [].

(** [w_after_map] with slot 0 of the handle overwritten. *)
Definition w_slot0 : World :=
  mk_world {[ h := set_bases [4096; 0; 0] H ]} (buffer_map w_after_map) (trace w_after_map).

(** A handle that fails its own check. *)
Definition H_bad : private_handle_t := mk_handle [-1; -1; -1; -1] 0 [0; 0; 0] 0 [0; 0; 0] 0.

Definition w_bad : World := mk_world {[ h := H_bad ]} ∅ [].

(** A handle with a descriptor left behind the first sentinel. *)
Definition H_gap : private_handle_t :=
  mk_handle [10; 11; -1; 12] 1 [4096; 0; 0] 4096 [0; 0; 0] 0.

Definition w_gap : World := mk_world {[ h := H_gap ]} ∅ [].

(** A second handle, at another address, registered once beside [h], which
    is registered once and mapped. *)
Definition h2 : addr := 65%N.

Definition w_two : World :=
  mk_world (<[ h2 := set_bases [0; 0; 0] H ]> {[ h := H_mapped ]})
           (<[ h2 := mk_data [0; 0; 0] [0; 0; 0] 1 ]>
              {[ h := mk_data [1048576; 0; 0] [4096; 0; 0] 1 ]})
           [EvIonMap h].

(** A mapper that runs out of address space after it has written the first
    slot, and the platform with this mapper. *)
Definition mapper_nomem (tr : list event) (hnd : private_handle_t) : Z * list Z :=
  (-12, <[ 0%nat := 1048576 ]> (bases hnd)).

Definition platform_nomem : Platform :=
  {| MAX_BUFFER_FDS := 3;
     MAX_FDS := 4;
     PAGE_SIZE := 4096;
     private_handle_validate := validate;
     get_share_attr_fd := attr_fd;
     lseek_result := lseek_oracle;
     ion_map := mapper_nomem;
     ion_unmap := unmapper |}.

(** [registered 1] after the sanity check has looked at descriptors 10 and
    11. *)
Definition w_checked : World :=
  mk_world {[ h := set_bases [0; 0; 0] H ]} {[ h := mk_data [0; 0; 0] [0; 0; 0] 1 ]}
           [EvLseek 10 0 SEEK_CUR; EvLseek 10 0 SEEK_END; EvLseek 10 0 SEEK_SET;
            EvLseek 11 0 SEEK_CUR; EvLseek 11 0 SEEK_END; EvLseek 11 0 SEEK_SET].

(** [w0] after the sanity check has looked at descriptors 10 and 11. *)
Definition w_checked_w0 : World :=
  mk_world {[ h := H ]} ∅
           [EvLseek 10 0 SEEK_CUR; EvLseek 10 0 SEEK_END; EvLseek 10 0 SEEK_SET;
            EvLseek 11 0 SEEK_CUR; EvLseek 11 0 SEEK_END; EvLseek 11 0 SEEK_SET].

(** A handle whose two descriptors, 20 and 21, are not open, and which
    advertises sizes of its own choosing. *)
Definition H_closed : private_handle_t :=
  mk_handle [20; 21; -1; -1] 1 [123456789; 0; 0] 987654321 [0; 0; 0] 0.

Definition w_closed : World := mk_world {[ h := H_closed ]} ∅ [].

End Demo.

(* ===================================================================== *)
(** ** The loops *)

Lemma all_from_spec (ok : nat → bool) (n from : nat) :
  all_from ok from n = true ↔ ∀ i : nat, (from ≤ i < from + n)%nat → ok i = true.
Proof.
  revert from. induction n as [|n IH]; intros from; simpl.
  - split; [intros _ i Hi; lia | done].
  - destruct (ok from) eqn:Hok.
    + rewrite IH. split; intros Hall i Hi.
      * destruct (decide (i = from)) as [->|]; [done | apply Hall; lia].
      * apply Hall. lia.
    + split; [done | intros Hall]. rewrite <- Hok. apply Hall. lia.
Qed.

Lemma fill_lookup (f : nat → Z) (n from : nat) (a : list Z) (i : nat) :
  fill f from n a !! i =
    if decide (from ≤ i < from + n)%nat then (λ _, f i) <$> a !! i else a !! i.
Proof.
  revert from a. induction n as [|n IH]; intros from a; simpl.
  - case_decide; [lia | done].
  - rewrite IH. destruct (decide (i = from)) as [->|Hne].
    + rewrite (decide_False (P := (S from ≤ from < _)%nat)) by lia.
      rewrite decide_True by lia.
      destruct (decide (from < length a)%nat).
      * rewrite list_lookup_insert_eq by done.
        by destruct (lookup_lt_is_Some_2 a from) as [x ->].
      * rewrite list_insert_ge by lia. rewrite lookup_ge_None_2 by lia. done.
    + rewrite list_lookup_insert_ne by done.
      repeat case_decide; first [done | lia].
Qed.

Lemma fill_length (f : nat → Z) (n from : nat) (a : list Z) :
  length (fill f from n a) = length a.
Proof.
  revert from a. induction n as [|n IH]; intros from a; simpl; [done|].
  by rewrite IH, length_insert.
Qed.

(** Filling a whole array leaves what [f] gives, slot by slot. *)
Lemma fill_whole (f : nat → Z) (n : nat) (a : list Z) (i : nat) :
  length a = n → (i < n)%nat → aget (fill f 0 n a) i = f i.
Proof.
  intros Hlen Hi. unfold aget. rewrite fill_lookup, decide_True by lia.
  destruct (lookup_lt_is_Some_2 a i) as [x ->]; [lia | done].
Qed.

Lemma fill_zero (n : nat) (a : list Z) (i : nat) :
  (i < n)%nat → aget (fill (λ _, 0) 0 n a) i = 0.
Proof.
  intros Hi. unfold aget. rewrite fill_lookup, decide_True by lia.
  by destruct (a !! i).
Qed.

(* ===================================================================== *)
(** ** The validator *)

Section Validator.
Context `{P : Platform}.

(** The two comparison loops of [validate_locked], as propositions. *)
Lemma mapped_loop_spec (hnd : private_handle_t) (d : MappedData) :
  all_from (λ i, negb (bool_decide (aget (data_bases d) i ≠ aget (bases hnd) i)
                       || bool_decide (aget (data_alloc_sizes d) i
                                       ≠ aget (alloc_sizes hnd) i)))
           0 MAX_BUFFER_FDS = true
  ↔ ∀ i : nat, (i < MAX_BUFFER_FDS)%nat → slot_matches hnd d i.
Proof.
  rewrite all_from_spec. unfold slot_matches.
  split; intros Hall i Hi.
  - specialize (Hall i ltac:(lia)).
    apply negb_true_iff, orb_false_iff in Hall as [H1 H2].
    apply bool_decide_eq_false in H1, H2.
    split; [destruct (decide (aget (bases hnd) i = aget (data_bases d) i))
           | destruct (decide (aget (alloc_sizes hnd) i = aget (data_alloc_sizes d) i))];
      first [done | exfalso; auto].
  - destruct (Hall i ltac:(lia)) as [H1 H2].
    apply negb_true_iff, orb_false_iff.
    split; apply bool_decide_eq_false; intros Hne; apply Hne; done.
Qed.

Lemma unmapped_loop_spec (hnd : private_handle_t) (d : MappedData) :
  all_from (λ i, negb (bool_decide (aget (bases hnd) i ≠ 0)
                       || bool_decide (aget (data_bases d) i ≠ 0)))
           0 MAX_BUFFER_FDS = true
  ↔ ∀ i : nat, (i < MAX_BUFFER_FDS)%nat → slot_clear hnd d i.
Proof.
  rewrite all_from_spec. unfold slot_clear.
  split; intros Hall i Hi.
  - specialize (Hall i ltac:(lia)).
    apply negb_true_iff, orb_false_iff in Hall as [H1 H2].
    apply bool_decide_eq_false in H1, H2.
    split; [destruct (decide (aget (bases hnd) i = 0))
           | destruct (decide (aget (data_bases d) i = 0))];
      first [done | exfalso; auto].
  - destruct (Hall i ltac:(lia)) as [H1 H2].
    apply negb_true_iff, orb_false_iff.
    split; apply bool_decide_eq_false; intros Hne; apply Hne; done.
Qed.

(** [validate_locked] always returns, writes nothing, and answers 0 or
    [-EINVAL]; 0 is for the handles that [validator_accepts]. *)
Lemma validate_locked_run (w : World) (handle : addr) :
  ∃ r, validate_locked handle w = Some (r, w)
       ∧ (r = 0 ∨ r = - EINVAL)
       ∧ (r = 0 ↔ validator_accepts w handle).
Proof.
  unfold validate_locked, validator_accepts, validate_ptr, find, load, bind, gets, ret,
    well_formed, record_mapped.
  destruct (handles w !! handle) as [hnd|] eqn:Hh; simpl.
  2:{ eexists; split; [done|]. split; [by right|].
      split; [discriminate | intros (? & ? & ? & _); done]. }
  destruct (decide (private_handle_validate hnd < 0)) as [Hv|Hv].
  { eexists; split; [done|]. split; [by right|].
    split; [discriminate | intros (? & ? & [= <-] & ? & _); done]. }
  destruct (buffer_map w !! handle) as [d|] eqn:Hd; simpl.
  2:{ eexists; split; [done|]. split; [by right|].
      split; [discriminate | intros (? & ? & _ & _ & ? & _); done]. }
  rewrite Hh.
  destruct (decide (aget (data_bases d) 0 ≠ 0)) as [Hm|Hm].
  - destruct (all_from _ 0 MAX_BUFFER_FDS) eqn:Hloop.
    + eexists; split; [done|]. split; [by left|]. split; [|done]. intros _.
      exists hnd, d. do 3 (split; [done|]).
      split; [intros _; by apply mapped_loop_spec | intros Hn; by destruct Hn].
    + eexists; split; [done|]. split; [by right|].
      split; [discriminate|]. intros (? & ? & [= <-] & _ & [= <-] & Hall & _).
      apply mapped_loop_spec in Hall; [congruence | done].
  - destruct (all_from _ 0 MAX_BUFFER_FDS) eqn:Hloop.
    + eexists; split; [done|]. split; [by left|]. split; [|done]. intros _.
      exists hnd, d. do 3 (split; [done|]).
      split; [intros Hn; by destruct Hm | intros _; by apply unmapped_loop_spec].
    + eexists; split; [done|]. split; [by right|].
      split; [discriminate|]. intros (? & ? & [= <-] & _ & [= <-] & _ & Hall).
      apply unmapped_loop_spec in Hall; [congruence | done].
Qed.

Lemma validate_locked_accepts (w : World) (handle : addr) :
  validator_accepts w handle → validate_locked handle w = Some (0, w).
Proof.
  intros Hacc. destruct (validate_locked_run w handle) as (r & Hrun & _ & Hr).
  apply Hr in Hacc as ->. done.
Qed.

Lemma validate_locked_rejects (w : World) (handle : addr) :
  ¬ validator_accepts w handle → validate_locked handle w = Some (- EINVAL, w).
Proof.
  intros Hrej. destruct (validate_locked_run w handle) as (r & Hrun & [->| ->] & Hr).
  - exfalso. by apply Hrej, Hr.
  - done.
Qed.

Lemma validate_locked_ok (w w' : World) (handle : addr) :
  validate_locked handle w = Some (0, w') → validator_accepts w handle.
Proof.
  intros Hrun. destruct (validate_locked_run w handle) as (r & Hrun0 & _ & Hr).
  rewrite Hrun0 in Hrun. injection Hrun as -> _. by apply Hr.
Qed.

Lemma validate_locked_inv (w w' : World) (handle : addr) (r : Z) :
  validate_locked handle w = Some (r, w') →
  w' = w ∧ (r = 0 ∧ validator_accepts w handle
            ∨ r = - EINVAL ∧ ¬ validator_accepts w handle).
Proof.
  intros Hrun. destruct (validate_locked_run w handle) as (r0 & Hrun0 & Hcases & Hr).
  rewrite Hrun0 in Hrun. injection Hrun as -> ->. split; [done|].
  destruct Hcases as [->| ->]; [left | right]; split; try done.
  - by apply Hr.
  - intros Hacc. apply Hr in Hacc. unfold EINVAL in Hacc. lia.
Qed.

(** C9.  [validate] is a pure observer: on every handle and in every state
    it returns, and the state it returns in is the state it was called in
    (records, table, handles and the calls made outside), whatever it
    answers. *)
Theorem validate_pure_observer (w : World) (handle : addr) :
  ∃ r, validate handle w = Some (r, w).
Proof.
  destruct (validate_locked_run w handle) as (r & Hrun & _).
  exists r. exact Hrun.
Qed.

(** C5, amended.  The validator answers 0 exactly when the handle is well
    formed, a record exists under its address and, in the mapped state,
    every slot [i < MAX_BUFFER_FDS] of the handle equals that of the record
    in [bases] and [alloc_sizes], in the unmapped state every slot of the
    handle's [bases] and of the record's [bases] is zero; it answers
    [-EINVAL] in every other case. *)
Theorem validate_accepts_iff (w : World) (handle : addr) :
  (validate handle w = Some (0, w) ↔ validator_accepts w handle)
  ∧ (validate handle w = Some (- EINVAL, w) ↔ ¬ validator_accepts w handle).
Proof.
  unfold validate.
  destruct (validate_locked_run w handle) as (r & Hrun & Hcases & Hr).
  rewrite Hrun. split; split.
  - intros [= ->]. by apply Hr.
  - intros Hacc. apply Hr in Hacc as ->. done.
  - intros [= ->] Hacc. apply Hr in Hacc. unfold EINVAL in Hacc. lia.
  - intros Hrej. destruct Hcases as [->| ->]; [|done].
    exfalso. by apply Hrej, Hr.
Qed.

End Validator.

(** C5 as stated fails: with one region in use and the record mapped, a
    handle whose unused slot 2 differs from the record's satisfies the
    condition of the specification, and the validator answers [-EINVAL]. *)
Lemma validate_in_use_counterexample :
  validator_as_stated (P := Demo.platform) Demo.w_slot2 Demo.h
  ∧ validate (P := Demo.platform) Demo.h Demo.w_slot2 = Some (- EINVAL, Demo.w_slot2).
Proof.
  split; [|vm_compute; reflexivity].
  exists (set_bases [1048576; 0; 5] Demo.H), (mk_data [1048576; 0; 0] [4096; 0; 0] 1).
  split; [reflexivity|]. split; [vm_compute; intros H; discriminate H|].
  split; [reflexivity|]. split.
  - intros _ i _ Hi. simpl in Hi. assert (i = 0%nat) as -> by lia. split; reflexivity.
  - intros Hun. exfalso. apply Hun. vm_compute. discriminate.
Qed.

(* ===================================================================== *)
(** ** Registration and release *)

Lemma wrap_u64_small (z : Z) : 0 ≤ z < 2 ^ 64 → wrap_u64 z = z.
Proof. intros Hz. unfold wrap_u64. by apply Z.mod_small. Qed.

Lemma wrap_s64_small (z : Z) : - 2 ^ 63 ≤ z < 2 ^ 63 → wrap_s64 z = z.
Proof. intros Hz. unfold wrap_s64. rewrite Z.mod_small; lia. Qed.

(** Unfolds the primitives of the monad so that a run can be computed. *)
Ltac unfold_monad :=
  unfold validate_ptr, munmap, store, find, write_record, erase, emit;
  unfold load, insert_record, bind, ret, gets, modify;
  unfold upd_handles, upd_buffer_map, log;
  cbv beta iota.

Section Registry.
Context `{P : Platform}.

(** What [retain] does, case by case. *)
Lemma retain_ill_formed (w : World) (handle : addr) :
  ill_formed w handle → retain handle w = Some (- EINVAL, w).
Proof.
  unfold ill_formed, retain. unfold_monad.
  destruct (handles w !! handle) as [hnd|]; simpl; intros Hill.
  - by rewrite decide_True.
  - done.
Qed.

Lemma retain_fresh (w : World) (handle : addr) (hnd : private_handle_t) :
  handles w !! handle = Some hnd → well_formed hnd → buffer_map w !! handle = None →
  retain handle w =
    Some (0, mk_world
               (<[handle := set_bases (fill (λ _, 0) 0 MAX_BUFFER_FDS (bases hnd)) hnd]>
                  (handles w))
               (<[handle := set_ref_count 1 new_MappedData]> (buffer_map w))
               (trace w)).
Proof.
  intros Hh Hwf Hd. unfold retain. unfold_monad. rewrite Hh. simpl.
  rewrite decide_False by done.
  repeat first [rewrite Hh | rewrite Hd | progress simpl].
  rewrite insert_insert_eq. done.
Qed.

Lemma retain_again (w : World) (handle : addr) (hnd : private_handle_t) (d : MappedData) :
  handles w !! handle = Some hnd → well_formed hnd → buffer_map w !! handle = Some d →
  retain handle w =
    Some (0, upd_buffer_map <[handle := set_ref_count (wrap_u64 (ref_count d + 1)) d]> w).
Proof.
  intros Hh Hwf Hd. unfold retain. unfold_monad. rewrite Hh. simpl.
  rewrite decide_False by done. rewrite Hd. simpl. done.
Qed.

(** C2.  On a well formed handle that has no record, [retain] creates the
    record, zeroes the scratch slots [bases[0..MAX_BUFFER_FDS)] of the
    handle, leaves the reference count at 1 and returns 0; on a handle that
    is not well formed it returns [-EINVAL] (and changes nothing). *)
Theorem retain_first_registration (w : World) (handle : addr) (hnd : private_handle_t) :
  handles w !! handle = Some hnd →
  (well_formed hnd → buffer_map w !! handle = None →
     ∃ w' hnd' d,
       retain handle w = Some (0, w')
       ∧ handles w' !! handle = Some hnd'
       ∧ (∀ i : nat, (i < MAX_BUFFER_FDS)%nat → aget (bases hnd') i = 0)
       ∧ length (bases hnd') = length (bases hnd)
       ∧ buffer_map w' = <[handle := d]> (buffer_map w)
       ∧ d = mk_data (replicate MAX_BUFFER_FDS 0) (replicate MAX_BUFFER_FDS 0) 1)
  ∧ (¬ well_formed hnd → retain handle w = Some (- EINVAL, w)).
Proof.
  intros Hh. split.
  - intros Hwf Hd. eexists _, _, _. split; [by apply retain_fresh|]. simpl.
    split; [apply lookup_insert_eq|]. simpl.
    split; [intros i Hi; by apply fill_zero|].
    split; [apply fill_length|]. done.
  - intros Hill. apply retain_ill_formed. unfold ill_formed. rewrite Hh.
    unfold well_formed in Hill. lia.
Qed.

(** What [release] does, case by case. *)
Lemma release_not_validated (w : World) (handle : addr) :
  ¬ validator_accepts w handle → release handle w = Some (- EINVAL, w).
Proof.
  intros Hrej. unfold release, bind.
  rewrite (validate_locked_rejects _ _ Hrej). done.
Qed.

Lemma validator_accepts_well_formed (w : World) (handle : addr) :
  validator_accepts w handle → ¬ ill_formed w handle.
Proof.
  intros (hnd & d & Hh & Hwf & _). unfold ill_formed. by rewrite Hh.
Qed.

Lemma validator_accepts_registered (w : World) (handle : addr) :
  validator_accepts w handle → is_Some (buffer_map w !! handle).
Proof. intros (hnd & d & _ & _ & Hd & _). by exists d. Qed.

Lemma release_count_zero (w : World) (handle : addr) (d : MappedData) :
  validator_accepts w handle → buffer_map w !! handle = Some d → ref_count d = 0 →
  release handle w = Some (- EINVAL, w).
Proof.
  intros Hacc Hd Hzero. unfold release, bind at 1.
  rewrite (validate_locked_accepts _ _ Hacc). simpl. unfold_monad. rewrite Hd.
  by rewrite decide_True.
Qed.

(** C7.  [release] returns [-EINVAL] and leaves the whole state as it was
    when the handle is not well formed, when it has no record, and when the
    reference count of its record is already zero. *)
Theorem release_rejects (w : World) (handle : addr) :
  ill_formed w handle
  ∨ buffer_map w !! handle = None
  ∨ (∃ d, buffer_map w !! handle = Some d ∧ ref_count d = 0) →
  release handle w = Some (- EINVAL, w).
Proof.
  intros Hcase.
  destruct (validate_locked_run w handle) as (r & Hrun & [->| ->] & Hr).
  - assert (validator_accepts w handle) as Hacc by by apply Hr.
    destruct Hcase as [Hill | [Hnone | (d & Hd & Hzero)]].
    + by destruct (validator_accepts_well_formed _ _ Hacc).
    + destruct (validator_accepts_registered _ _ Hacc) as [d Hd]. congruence.
    + by eapply release_count_zero.
  - unfold release, bind. rewrite Hrun. done.
Qed.

End Registry.

(** C2 on the demonstration platform: the first [retain] of a well formed
    handle, and a [retain] of a handle that fails its check. *)
Lemma retain_first_registration_witness :
  (∃ w' hnd' d,
     retain (P := Demo.platform) Demo.h Demo.w0 = Some (0, w')
     ∧ handles w' !! Demo.h = Some hnd'
     ∧ (∀ i : nat, (i < 3)%nat → aget (bases hnd') i = 0)
     ∧ length (bases hnd') = length (bases Demo.H)
     ∧ buffer_map w' = <[Demo.h := d]> (buffer_map Demo.w0)
     ∧ d = mk_data (replicate 3 0) (replicate 3 0) 1)
  ∧ retain (P := Demo.platform) Demo.h Demo.w_bad = Some (- EINVAL, Demo.w_bad).
Proof.
  split.
  - apply (proj1 (retain_first_registration (P := Demo.platform)
                    Demo.w0 Demo.h Demo.H eq_refl)).
    + vm_compute. intros Hlt. discriminate Hlt.
    + reflexivity.
  - apply (proj2 (retain_first_registration (P := Demo.platform)
                    Demo.w_bad Demo.h Demo.H_bad eq_refl)).
    intros Hwf. apply Hwf. vm_compute. reflexivity.
Defined.

(** C7 on the demonstration platform: a handle that fails its check, a handle
    never retained, and a record whose count is zero. *)
Lemma release_rejects_witness :
  release (P := Demo.platform) Demo.h Demo.w_bad = Some (- EINVAL, Demo.w_bad)
  ∧ release (P := Demo.platform) Demo.h Demo.w0 = Some (- EINVAL, Demo.w0)
  ∧ release (P := Demo.platform) Demo.h (Demo.registered 0)
    = Some (- EINVAL, Demo.registered 0).
Proof.
  split; [|split].
  - apply (release_rejects (P := Demo.platform)). left. vm_compute. reflexivity.
  - apply (release_rejects (P := Demo.platform)). right. left. reflexivity.
  - apply (release_rejects (P := Demo.platform)). right. right.
    exists (mk_data [0; 0; 0] [0; 0; 0] 0). split; reflexivity.
Defined.

(* ===================================================================== *)
(** ** The last release *)

Section Teardown.
Context `{P : Platform}.

Lemma mali_gralloc_ion_unmap_run (w : World) (handle : addr) (hnd : private_handle_t) :
  handles w !! handle = Some hnd →
  mali_gralloc_ion_unmap handle w =
    Some (fst (ion_unmap (trace w) hnd),
          mk_world (<[handle := set_bases (snd (ion_unmap (trace w) hnd)) hnd]> (handles w))
                   (buffer_map w)
                   (trace w ++ [EvIonUnmap handle])).
Proof.
  intros Hh. unfold mali_gralloc_ion_unmap. unfold_monad. rewrite Hh. done.
Qed.

Lemma mali_gralloc_ion_map_run (w : World) (handle : addr) (hnd : private_handle_t) :
  handles w !! handle = Some hnd →
  mali_gralloc_ion_map handle w =
    Some (fst (ion_map (trace w) hnd),
          mk_world (<[handle := set_bases (snd (ion_map (trace w) hnd)) hnd]> (handles w))
                   (buffer_map w)
                   (trace w ++ [EvIonMap handle])).
Proof.
  intros Hh. unfold mali_gralloc_ion_map. unfold_monad. rewrite Hh. done.
Qed.

(** A successful [release] that is not the last one only lowers the count. *)
Lemma release_not_last (w : World) (handle : addr) (d : MappedData) :
  validator_accepts w handle → buffer_map w !! handle = Some d →
  ref_count d ≠ 0 → wrap_u64 (ref_count d - 1) ≠ 0 →
  release handle w =
    Some (0, upd_buffer_map <[handle := set_ref_count (wrap_u64 (ref_count d - 1)) d]> w).
Proof.
  intros Hacc Hd Hnz Hnl. unfold release, bind at 1.
  rewrite (validate_locked_accepts _ _ Hacc). simpl. unfold_monad.
  rewrite Hd. rewrite decide_False by done. simpl. rewrite decide_False by done. done.
Qed.

(** The [release] that brings the count to zero. *)
Lemma release_teardown (w : World) (handle : addr) (hnd : private_handle_t)
    (d : MappedData) :
  validator_accepts w handle →
  handles w !! handle = Some hnd →
  buffer_map w !! handle = Some d →
  ref_count d ≠ 0 → wrap_u64 (ref_count d - 1) = 0 →
  ∃ w' hnd',
    release handle w = Some (0, w')
    ∧ buffer_map w' = delete handle (buffer_map w)
    ∧ trace w' =
        trace w
        ++ (if decide (record_mapped d) then [EvIonUnmap handle] else [])
        ++ (if decide (attr_base hnd ≠ 0)
            then [EvMunmap (attr_base hnd) (attr_size hnd)] else [])
    ∧ handles w' !! handle = Some hnd'
    ∧ attr_base hnd' = 0.
Proof.
  intros Hacc Hh Hd Hnz Hzero. unfold release, bind at 1.
  rewrite (validate_locked_accepts _ _ Hacc). simpl.
  unfold bind at 1, find, gets. rewrite Hd.
  rewrite decide_False by done. rewrite Hzero.
  unfold bind at 1, write_record, modify. simpl.
  unfold bind at 1.
  destruct (decide (record_mapped d)) as [Hm|Hm].
  - rewrite (decide_True (P := aget (data_bases d) 0 ≠ 0)) by exact Hm.
    unfold bind at 1. erewrite mali_gralloc_ion_unmap_run by exact Hh.
    unfold_monad. simpl. rewrite lookup_insert_eq. simpl.
    destruct (decide (attr_base hnd ≠ 0)) as [Ha|Ha]; simpl.
    + eexists _, _. split; [done|]. simpl.
      split; [by rewrite delete_insert_eq|].
      split; [by rewrite <- app_assoc|].
      split; [apply lookup_insert_eq | done].
    + eexists _, _. split; [done|]. simpl.
      split; [by rewrite delete_insert_eq|].
      split; [done|].
      split; [apply lookup_insert_eq|]. simpl. by destruct (decide (attr_base hnd = 0)).
  - rewrite (decide_False (P := aget (data_bases d) 0 ≠ 0)) by exact Hm.
    unfold_monad. simpl. rewrite Hh. simpl.
    destruct (decide (attr_base hnd ≠ 0)) as [Ha|Ha]; simpl.
    + eexists _, _. split; [done|]. simpl.
      split; [by rewrite delete_insert_eq|].
      split; [done|].
      split; [apply lookup_insert_eq | done].
    + eexists _, _. split; [done|]. simpl.
      split; [by rewrite delete_insert_eq|].
      split; [by rewrite app_nil_r|].
      split; [exact Hh|]. by destruct (decide (attr_base hnd = 0)).
Qed.

(** C6.  The [release] that takes the reference count from 1 to zero
    removes the record from the table, calls the mapper's unmap exactly when
    the record is in the mapped state and, whether it is or not, unmaps the
    metadata region and clears [attr_base] whenever [attr_base] is not
    null. *)
Theorem release_last (w : World) (handle : addr) (hnd : private_handle_t) (d : MappedData) :
  validator_accepts w handle →
  handles w !! handle = Some hnd →
  buffer_map w !! handle = Some d →
  ref_count d = 1 →
  ∃ w' hnd',
    release handle w = Some (0, w')
    ∧ buffer_map w' = delete handle (buffer_map w)
    ∧ trace w' =
        trace w
        ++ (if decide (record_mapped d) then [EvIonUnmap handle] else [])
        ++ (if decide (attr_base hnd ≠ 0)
            then [EvMunmap (attr_base hnd) (attr_size hnd)] else [])
    ∧ handles w' !! handle = Some hnd'
    ∧ attr_base hnd' = 0.
Proof.
  intros Hacc Hh Hd Hone.
  apply release_teardown; try done; rewrite Hone; done.
Qed.

End Teardown.

(** C6 on the demonstration platform: the release of a handle retained once
    and mapped. *)
Lemma release_last_witness :
  ∃ w' hnd',
    release (P := Demo.platform) Demo.h Demo.w_mapped = Some (0, w')
    ∧ buffer_map w' = delete Demo.h (buffer_map Demo.w_mapped)
    ∧ trace w' = [EvIonMap Demo.h] ++ [EvIonUnmap Demo.h] ++ [EvMunmap 4194304 4096]
    ∧ handles w' !! Demo.h = Some hnd'
    ∧ attr_base hnd' = 0.
Proof.
  apply (release_last (P := Demo.platform) Demo.w_mapped Demo.h
           Demo.H_mapped (mk_data [1048576; 0; 0] [4096; 0; 0] 1)).
  - apply (validate_locked_ok (P := Demo.platform) Demo.w_mapped Demo.w_mapped Demo.h).
    vm_compute. reflexivity.
  - reflexivity.
  - reflexivity.
  - reflexivity.
Defined.

(* ===================================================================== *)
(** ** The sanity check of the descriptors *)

Section Sanity.
Context `{P : Platform}.

Lemma lseek_only_refl (w : World) : lseek_only w w.
Proof.
  split; [done|]. split; [done|]. exists []. by rewrite app_nil_r.
Qed.

Lemma lseek_only_trans (w1 w2 w3 : World) :
  lseek_only w1 w2 → lseek_only w2 w3 → lseek_only w1 w3.
Proof.
  intros (Hh1 & Hb1 & evs1 & Ht1 & Hl1) (Hh2 & Hb2 & evs2 & Ht2 & Hl2).
  split; [congruence|]. split; [congruence|].
  exists (evs1 ++ evs2). split.
  - by rewrite Ht2, Ht1, app_assoc.
  - by apply Forall_app.
Qed.

Lemma lseek_run (fd offset : Z) (wh : whence) (w : World) :
  lseek fd offset wh w = Some (lseek_result fd offset wh, log (EvLseek fd offset wh) w)
  ∧ lseek_only w (log (EvLseek fd offset wh) w).
Proof.
  split; [done|]. split; [done|]. split; [done|].
  exists [EvLseek fd offset wh]. split; [done|]. by repeat constructor.
Qed.

Lemma get_buffer_size_run (fd : Z) (w : World) :
  ∃ w', get_buffer_size fd w = Some (lseek_result fd 0 SEEK_END, w') ∧ lseek_only w w'.
Proof.
  unfold get_buffer_size, bind.
  destruct (lseek_run fd 0 SEEK_CUR w) as [-> H1].
  destruct (lseek_run fd 0 SEEK_END (log (EvLseek fd 0 SEEK_CUR) w)) as [-> H2].
  match goal with |- context [lseek fd ?c SEEK_SET ?w2] =>
    destruct (lseek_run fd c SEEK_SET w2) as [-> H3] end.
  eexists. split; [done|].
  eapply lseek_only_trans; [exact H1|]. eapply lseek_only_trans; [exact H2 | exact H3].
Qed.

Lemma check_pid_run (fd allocated_size : Z) (w : World) :
  ∃ w', check_pid fd allocated_size w
        = Some (size_accepted (lseek_result fd 0 SEEK_END) allocated_size, w')
        ∧ lseek_only w w'.
Proof.
  unfold check_pid, bind at 1.
  destruct (get_buffer_size_run fd w) as (w' & -> & Hl).
  exists w'. split; [|done]. unfold size_accepted, ret.
  by destruct (bool_decide _ && _).
Qed.

Lemma check_client_fds_run (hnd : private_handle_t) (n i : nat) (w : World) :
  ∃ w', check_client_fds hnd i n w
        = Some (all_from (λ j, size_accepted (lseek_result (aget (fds hnd) j) 0 SEEK_END)
                                             (aget (alloc_sizes hnd) j)) i n, w')
        ∧ lseek_only w w'.
Proof.
  revert i w. induction n as [|n IH]; intros i w; simpl.
  - exists w. split; [done | apply lseek_only_refl].
  - unfold bind at 1.
    destruct (check_pid_run (aget (fds hnd) i) (aget (alloc_sizes hnd) i) w)
      as (w1 & -> & Hl1).
    destruct (size_accepted _ _).
    + destruct (IH (S i) w1) as (w2 & -> & Hl2).
      exists w2. split; [done | by eapply lseek_only_trans].
    + exists w1. done.
Qed.

(** [dmabuf_sanity_check] returns, calls nothing but [lseek], and answers
    with the conjunction of its three tests. *)
Lemma dmabuf_sanity_check_run (w : World) (handle : addr) (hnd : private_handle_t) :
  handles w !! handle = Some hnd →
  ∃ w', dmabuf_sanity_check handle w
        = Some (bool_decide (fd_count hnd = sentinel_prefix hnd - 1)
                && all_from (λ j, size_accepted (lseek_result (aget (fds hnd) j) 0 SEEK_END)
                                                (aget (alloc_sizes hnd) j))
                            0 (Z.to_nat (fd_count hnd))
                && size_accepted (lseek_result (get_share_attr_fd hnd) 0 SEEK_END)
                                 (attr_size hnd), w')
        ∧ lseek_only w w'.
Proof.
  intros Hh. unfold dmabuf_sanity_check, bind at 1, load. rewrite Hh.
  fold (sentinel_prefix hnd).
  destruct (decide (fd_count hnd ≠ sentinel_prefix hnd - 1)) as [Hne|Heq].
  { exists w. rewrite bool_decide_eq_false_2 by done. split; [done | apply lseek_only_refl]. }
  rewrite bool_decide_eq_true_2 by (destruct (decide (fd_count hnd = sentinel_prefix hnd - 1)); [done | by destruct Heq]).
  unfold bind at 1.
  destruct (check_client_fds_run hnd (Z.to_nat (fd_count hnd)) 0 w) as (w1 & -> & Hl1).
  destruct (all_from _ 0 _); simpl.
  2:{ exists w1. done. }
  unfold bind at 1.
  destruct (check_pid_run (get_share_attr_fd hnd) (attr_size hnd) w1) as (w2 & -> & Hl2).
  exists w2. split; [|by eapply lseek_only_trans].
  by destruct (size_accepted _ _).
Qed.

Lemma size_accepted_spec (size allocated_size : Z) :
  -1 ≤ size < 2 ^ 63 → 0 ≤ allocated_size < 2 ^ 63 →
  size_accepted size allocated_size = true ↔ length_within size allocated_size.
Proof.
  intros Hs Ha. unfold size_accepted, length_within.
  rewrite (wrap_s64_small allocated_size) by lia.
  rewrite wrap_s64_small by lia.
  rewrite negb_true_iff, andb_false_iff, orb_false_iff, bool_decide_eq_false.
  rewrite !Z.ltb_ge. lia.
Qed.

(** C3, amended.  The sanity check accepts a handle exactly when the
    number of entries of [fds] before the first sentinel is [fd_count + 1]
    and the length the system reports is -1 or within
    [[alloc_sizes[i], alloc_sizes[i] + PAGE_SIZE]] for each client facing
    descriptor [i < fd_count], and within [[attr_size, attr_size + PAGE_SIZE]]
    for the metadata descriptor; this for advertised sizes below [2^63],
    which the cast to [off_t] does not change.  The check calls [lseek] and
    nothing else. *)
Theorem dmabuf_sanity_check_accepts (w : World) (handle : addr) (hnd : private_handle_t) :
  handles w !! handle = Some hnd →
  lseek_in_range →
  sizes_fit_off_t hnd →
  ∃ b w', dmabuf_sanity_check handle w = Some (b, w')
          ∧ lseek_only w w'
          ∧ (b = true ↔ sanity_accepts hnd).
Proof.
  intros Hh Hrange [Hsizes Hattr].
  destruct (dmabuf_sanity_check_run w handle hnd Hh) as (w' & Hrun & Hl).
  eexists _, w'. split; [exact Hrun|]. split; [exact Hl|].
  unfold sanity_accepts, lengths_within.
  rewrite !andb_true_iff, bool_decide_eq_true, all_from_spec.
  rewrite size_accepted_spec by (first [apply Hrange | exact Hattr]).
  split.
  - intros [[Hcount Hall] Hmeta]. split; [lia|]. split; [|done].
    intros i Hi. apply size_accepted_spec; [apply Hrange | by apply Hsizes |].
    apply Hall. lia.
  - intros [Hcount [Hall Hmeta]]. split; [split; [lia|] | done].
    intros i Hi. apply size_accepted_spec; [apply Hrange | apply Hsizes; lia |].
    apply Hall. lia.
Qed.

End Sanity.

Lemma demo_lseek_in_range : lseek_in_range (P := Demo.platform).
Proof.
  intros fd offset. simpl. unfold Demo.lseek_oracle.
  repeat case_decide; lia.
Qed.

(** C3 on the demonstration platform: the handle with one region of 4096
    bytes, whose two descriptors are 4096 bytes long, is accepted. *)
Lemma dmabuf_sanity_check_accepts_witness :
  ∃ b w', dmabuf_sanity_check (P := Demo.platform) Demo.h Demo.w0 = Some (b, w')
          ∧ lseek_only Demo.w0 w'
          ∧ (b = true ↔ sanity_accepts (P := Demo.platform) Demo.H).
Proof.
  apply (dmabuf_sanity_check_accepts (P := Demo.platform) Demo.w0 Demo.h Demo.H).
  - reflexivity.
  - exact demo_lseek_in_range.
  - split.
    + intros i Hi. simpl in Hi. assert (i = 0%nat) as -> by lia.
      vm_compute. split; [discriminate | reflexivity].
    + vm_compute. split; [discriminate | reflexivity].
Defined.

(** C3 as stated fails: a handle whose [fds] hold a descriptor behind the
    first sentinel has three entries that are not the sentinel, which is not
    [fd_count + 1 = 2], and the check accepts it. *)
Lemma dmabuf_sanity_check_count_counterexample :
  (∃ w', dmabuf_sanity_check (P := Demo.platform) Demo.h Demo.w_gap = Some (true, w'))
  ∧ ¬ sanity_as_stated (P := Demo.platform) Demo.H_gap.
Proof.
  split.
  - eexists. vm_compute. reflexivity.
  - intros [Hcount _]. vm_compute in Hcount. discriminate Hcount.
Qed.

(* ===================================================================== *)
(** ** Mapping *)

Lemma ion_map_calls_app (handle : addr) (tr evs : list event) :
  ion_map_calls handle (tr ++ evs) = (ion_map_calls handle tr + ion_map_calls handle evs)%nat.
Proof. unfold ion_map_calls. by rewrite filter_app, length_app. Qed.

Lemma ion_map_calls_lseeks (handle : addr) (evs : list event) :
  Forall is_lseek evs → ion_map_calls handle evs = 0%nat.
Proof.
  unfold ion_map_calls. induction 1 as [|e evs He _ IH]; [done|].
  rewrite filter_cons. destruct (decide (e = EvIonMap handle)) as [->|]; [done | exact IH].
Qed.

Lemma ion_map_calls_one (handle : addr) : ion_map_calls handle [EvIonMap handle] = 1%nat.
Proof.
  unfold ion_map_calls. rewrite filter_cons, decide_True by done. done.
Qed.

Lemma ion_map_calls_lseek_only (handle : addr) (w w' : World) :
  lseek_only w w' → ion_map_calls handle (trace w') = ion_map_calls handle (trace w).
Proof.
  intros (_ & _ & evs & -> & Hl).
  rewrite ion_map_calls_app, (ion_map_calls_lseeks _ _ Hl). lia.
Qed.

Section Mapping.
Context `{P : Platform}.

Lemma map_not_validated (w : World) (handle : addr) :
  ¬ validator_accepts w handle → map handle w = Some (- EINVAL, w).
Proof.
  intros Hrej. unfold map, bind.
  rewrite (validate_locked_rejects _ _ Hrej). done.
Qed.

Lemma map_validated (w : World) (handle : addr) :
  validator_accepts w handle → map handle w = map_locked handle w.
Proof.
  intros Hacc. unfold map, bind.
  rewrite (validate_locked_accepts _ _ Hacc). done.
Qed.

Lemma map_locked_mapped (w : World) (handle : addr) (d : MappedData) :
  buffer_map w !! handle = Some d → record_mapped d → map_locked handle w = Some (0, w).
Proof.
  intros Hd Hm. unfold map_locked, bind, find, gets. rewrite Hd.
  by rewrite decide_True.
Qed.

(** [map_locked] on a record that is not mapped: the sanity check, then
    the mapper, then the copy into the record. *)
Lemma map_locked_unmapped (w : World) (handle : addr) (hnd : private_handle_t)
    (d : MappedData) :
  handles w !! handle = Some hnd → buffer_map w !! handle = Some d → ¬ record_mapped d →
  ∃ b w1,
    dmabuf_sanity_check handle w = Some (b, w1) ∧ lseek_only w w1 ∧
    map_locked handle w =
      if b then
        let res := ion_map (trace w1) hnd in
        let hnd' := set_bases (snd res) hnd in
        Some (fst res,
              mk_world (<[handle := hnd']> (handles w))
                       (if decide (fst res ≠ 0) then buffer_map w
                        else <[handle :=
                                 mk_data (fill (aget (bases hnd')) 0 MAX_BUFFER_FDS (data_bases d))
                                         (fill (aget (alloc_sizes hnd')) 0 MAX_BUFFER_FDS
                                               (data_alloc_sizes d))
                                         (ref_count d)]> (buffer_map w))
                       (trace w1 ++ [EvIonMap handle]))
      else Some (- EINVAL, w1).
Proof.
  intros Hh Hd Hm.
  destruct (dmabuf_sanity_check_run w handle hnd Hh) as (w1 & Hrun & Hl).
  eexists _, w1. split; [exact Hrun|]. split; [exact Hl|].
  unfold map_locked, bind at 1, find, gets. rewrite Hd.
  rewrite decide_False by exact Hm.
  unfold bind at 1. rewrite Hrun.
  destruct Hl as (Hh1 & Hb1 & _).
  match goal with |- context [if ?b then _ else Some (- EINVAL, w1)] => destruct b end;
    simpl; [|done].
  unfold bind at 1. erewrite mali_gralloc_ion_map_run by (rewrite Hh1; exact Hh).
  rewrite Hh1, Hb1.
  destruct (decide (fst (ion_map (trace w1) hnd) ≠ 0)) as [Herr|Hok]; simpl; [done|].
  unfold_monad. simpl. rewrite lookup_insert_eq. simpl.
  destruct (decide (fst (ion_map (trace w1) hnd) = 0)) as [->|]; [done | by destruct Hok].
Qed.

(** C10.  [map] runs the validator first: on a registered handle whose
    record is not mapped and whose scratch slot [bases[i]] is not zero for
    some [i < MAX_BUFFER_FDS], it returns [-EINVAL] and leaves the whole
    state as it was; in particular neither [lseek], which the sanity check
    calls, nor the mapper is called. *)
Theorem map_tampered_scratch (w : World) (handle : addr) (hnd : private_handle_t)
    (d : MappedData) (i : nat) :
  handles w !! handle = Some hnd →
  buffer_map w !! handle = Some d →
  ¬ record_mapped d →
  (i < MAX_BUFFER_FDS)%nat →
  aget (bases hnd) i ≠ 0 →
  map handle w = Some (- EINVAL, w).
Proof.
  intros Hh Hd Hm Hi Hne. apply map_not_validated.
  intros (hnd' & d' & Hh' & _ & Hd' & _ & Hclear).
  rewrite Hh in Hh'. injection Hh' as <-.
  rewrite Hd in Hd'. injection Hd' as <-.
  destruct (Hclear Hm i Hi) as [Hzero _]. done.
Qed.

(** C8.  When the record of a registered handle is not mapped and the
    sanity check rejects the handle, [map] returns [-EINVAL]; the handles
    and the table are as they were, so the record keeps its reference
    count and stays unmapped, and nothing but [lseek] has been called. *)
Theorem map_sanity_rejected (w w1 : World) (handle : addr) (d : MappedData) :
  buffer_map w !! handle = Some d →
  ¬ record_mapped d →
  dmabuf_sanity_check handle w = Some (false, w1) →
  ∃ w', map handle w = Some (- EINVAL, w')
        ∧ handles w' = handles w
        ∧ buffer_map w' = buffer_map w
        ∧ buffer_map w' !! handle = Some d
        ∧ lseek_only w w'.
Proof.
  intros Hd Hm Hsanity.
  destruct (validate_locked_run w handle) as (r & Hrun & [->| ->] & Hr).
  - assert (validator_accepts w handle) as Hacc by by apply Hr.
    destruct Hacc as (hnd & d' & Hh & _).
    destruct (map_locked_unmapped w handle hnd d Hh Hd Hm) as (b & w2 & Hs & Hl & Hmap).
    rewrite Hsanity in Hs. injection Hs as <- <-.
    exists w1. unfold map, bind. rewrite Hrun. simpl. rewrite Hmap.
    destruct Hl as (Hh1 & Hb1 & Hev).
    split; [done|]. split; [done|]. split; [done|]. split; [by rewrite Hb1|].
    by split.
  - exists w. unfold map, bind. rewrite Hrun. simpl.
    split; [done|]. split; [done|]. split; [done|]. split; [done|].
    apply lseek_only_refl.
Qed.

(** One [map] asks the mapper at most once. *)
Lemma map_calls_mapper_once (w w' : World) (handle : addr) (r : Z) :
  map handle w = Some (r, w') →
  (ion_map_calls handle (trace w') ≤ ion_map_calls handle (trace w) + 1)%nat.
Proof.
  intros Hmap.
  destruct (validate_locked_run w handle) as (r0 & Hrun & [->| ->] & Hr).
  - assert (validator_accepts w handle) as Hacc by by apply Hr.
    rewrite (map_validated _ _ Hacc) in Hmap.
    destruct Hacc as (hnd & d & Hh & _ & Hd & _).
    destruct (decide (record_mapped d)) as [Hm|Hm].
    + rewrite (map_locked_mapped _ _ _ Hd Hm) in Hmap. injection Hmap as _ <-. lia.
    + destruct (map_locked_unmapped w handle hnd d Hh Hd Hm) as (b & w1 & _ & Hl & Hrun1).
      rewrite Hrun1 in Hmap. destruct b.
      * injection Hmap as _ <-. simpl.
        rewrite ion_map_calls_app, (ion_map_calls_lseek_only _ _ _ Hl).
        rewrite ion_map_calls_one. lia.
      * injection Hmap as _ <-. rewrite (ion_map_calls_lseek_only _ _ _ Hl). lia.
  - unfold map, bind in Hmap. rewrite Hrun in Hmap. simpl in Hmap.
    injection Hmap as _ <-. lia.
Qed.

(** After a successful [map] that leaves the record mapped, the handle passes
    the validator. *)
Lemma map_then_validates (w0 w : World) (handle : addr) (d : MappedData) :
  records_laid_out w0 →
  validate_ignores_bases →
  map handle w0 = Some (0, w) →
  buffer_map w !! handle = Some d →
  record_mapped d →
  validator_accepts w handle.
Proof.
  intros Hlay Hign Hmap Hd Hm.
  destruct (validate_locked_run w0 handle) as (r0 & Hrun & [->| ->] & Hr).
  2:{ unfold map, bind in Hmap. rewrite Hrun in Hmap. simpl in Hmap.
      injection Hmap as Hbad _. unfold EINVAL in Hbad. lia. }
  assert (validator_accepts w0 handle) as Hacc by by apply Hr.
  rewrite (map_validated _ _ Hacc) in Hmap.
  pose proof Hacc as (hnd & d0 & Hh & Hwf & Hd0 & _).
  destruct (decide (record_mapped d0)) as [Hm0|Hm0].
  { rewrite (map_locked_mapped _ _ _ Hd0 Hm0) in Hmap. by injection Hmap as <-. }
  destruct (map_locked_unmapped w0 handle hnd d0 Hh Hd0 Hm0) as (b & w1 & _ & _ & Hrun1).
  rewrite Hrun1 in Hmap. destruct b; [|injection Hmap as Hbad _; unfold EINVAL in Hbad; lia].
  injection Hmap as Hzero <-. simpl in Hd.
  rewrite decide_False in Hd by (rewrite Hzero; by intros ?).
  rewrite lookup_insert_eq in Hd. injection Hd as <-.
  destruct (Hlay handle d0 Hd0) as [Hlb Hla].
  eexists _, _. split; [apply lookup_insert_eq|].
  split; [unfold well_formed; by rewrite Hign|].
  split; [simpl; rewrite decide_False by (rewrite Hzero; by intros ?); apply lookup_insert_eq|].
  split; [|by intros Hn; destruct Hn].
  intros _ i Hi. unfold slot_matches. simpl.
  by rewrite !fill_whole.
Qed.

(** C4.  [map] is idempotent.  After a successful [map], if the record is
    in the mapped state and the handle still passes the validator, a second
    [map] returns 0 and leaves the whole state as it was, so that the
    [bases] of the handle and of the record are those of the first [map];
    the two calls together ask the mapper at most once. *)
Theorem map_idempotent (w0 w : World) (handle : addr) (d : MappedData) :
  map handle w0 = Some (0, w) →
  buffer_map w !! handle = Some d →
  record_mapped d →
  validator_accepts w handle →
  map handle w = Some (0, w)
  ∧ (ion_map_calls handle (trace w) ≤ ion_map_calls handle (trace w0) + 1)%nat.
Proof.
  intros Hfirst Hd Hm Hacc. split.
  - rewrite (map_validated _ _ Hacc). by eapply map_locked_mapped.
  - by eapply map_calls_mapper_once.
Qed.

End Mapping.

(** C10 on the demonstration platform: slot 1 of the handle was overwritten
    after the registration. *)
Lemma map_tampered_scratch_witness :
  map (P := Demo.platform) Demo.h Demo.w_tampered = Some (- EINVAL, Demo.w_tampered).
Proof.
  apply (map_tampered_scratch (P := Demo.platform) Demo.w_tampered Demo.h
           (set_bases [0; 9; 0] Demo.H) (mk_data [0; 0; 0] [0; 0; 0] 1) 1).
  - reflexivity.
  - reflexivity.
  - intros Hm. apply Hm. reflexivity.
  - simpl. lia.
  - vm_compute. discriminate.
Defined.

(** C8 on the demonstration platform: the descriptor is 16384 bytes long and
    the handle advertises 4096. *)
Lemma map_sanity_rejected_witness :
  ∃ w', map (P := Demo.platform) Demo.h Demo.w_big = Some (- EINVAL, w')
        ∧ handles w' = handles Demo.w_big
        ∧ buffer_map w' = buffer_map Demo.w_big
        ∧ buffer_map w' !! Demo.h = Some (mk_data [0; 0; 0] [0; 0; 0] 1)
        ∧ lseek_only Demo.w_big w'.
Proof.
  apply (map_sanity_rejected (P := Demo.platform) Demo.w_big Demo.w_big_checked Demo.h).
  - reflexivity.
  - intros Hm. apply Hm. reflexivity.
  - vm_compute. reflexivity.
Defined.

(** C4 on the demonstration platform: [map] twice on a handle retained once. *)
Lemma map_idempotent_witness :
  map (P := Demo.platform) Demo.h Demo.w_after_map = Some (0, Demo.w_after_map)
  ∧ (ion_map_calls Demo.h (trace Demo.w_after_map)
     ≤ ion_map_calls Demo.h (trace (Demo.registered 1)) + 1)%nat.
Proof.
  apply (map_idempotent (P := Demo.platform) (Demo.registered 1) Demo.w_after_map Demo.h
           (mk_data [7340032; 0; 0] [4096; 0; 0] 1)).
  - vm_compute. reflexivity.
  - reflexivity.
  - vm_compute. discriminate.
  - apply (validate_locked_ok (P := Demo.platform) Demo.w_after_map Demo.w_after_map Demo.h).
    vm_compute. reflexivity.
Defined.

(* ===================================================================== *)
(** ** The reference count along a sequence of calls *)

Lemma successes_nonneg (o : op) (ops : list op) (rs : list Z) : 0 ≤ successes o ops rs.
Proof.
  revert rs. induction ops as [|o' ops IH]; intros [|r rs]; simpl; try done.
  specialize (IH rs). case_bool_decide; lia.
Qed.

Section Counting.
Context `{P : Platform}.

(** [refs] and [counted] look at the count of the record only. *)
Lemma refs_ext (w w' : World) (h : addr) :
  ref_count <$> buffer_map w' !! h = ref_count <$> buffer_map w !! h →
  refs w' h = refs w h ∧ (counted w h → counted w' h).
Proof.
  unfold refs, counted.
  destruct (buffer_map w' !! h), (buffer_map w !! h); simpl; intros Heq;
    try discriminate; [injection Heq as ->; done | done].
Qed.

Lemma retain_effect (w w' : World) (h : addr) (r : Z) :
  retain h w = Some (r, w') →
  (r = - EINVAL ∧ w' = w)
  ∨ (r = 0 ∧ ∃ d', buffer_map w' = <[h := d']> (buffer_map w)
                   ∧ ref_count d' = wrap_u64 (refs w h + 1)).
Proof.
  intros Hrun.
  destruct (handles w !! h) as [hnd|] eqn:Hh.
  2:{ rewrite retain_ill_formed in Hrun by (unfold ill_formed; by rewrite Hh).
      injection Hrun as <- <-. by left. }
  destruct (decide (private_handle_validate hnd < 0)) as [Hv|Hv].
  { rewrite retain_ill_formed in Hrun by (unfold ill_formed; by rewrite Hh).
    injection Hrun as <- <-. by left. }
  right. unfold refs. destruct (buffer_map w !! h) as [d|] eqn:Hd.
  - rewrite (retain_again w h hnd d Hh Hv Hd) in Hrun. injection Hrun as <- <-.
    split; [done|]. eexists. split; done.
  - rewrite (retain_fresh w h hnd Hh Hv Hd) in Hrun. injection Hrun as <- <-.
    split; [done|]. eexists. split; done.
Qed.

Lemma release_effect (w w' : World) (h : addr) (r : Z) :
  release h w = Some (r, w') →
  (r = - EINVAL ∧ w' = w)
  ∨ (r = 0 ∧ is_Some (buffer_map w !! h) ∧ refs w h ≠ 0
     ∧ (wrap_u64 (refs w h - 1) = 0 ∧ buffer_map w' = delete h (buffer_map w)
        ∨ wrap_u64 (refs w h - 1) ≠ 0
          ∧ ∃ d', buffer_map w' = <[h := d']> (buffer_map w)
                  ∧ ref_count d' = wrap_u64 (refs w h - 1))).
Proof.
  intros Hrun.
  destruct (validate_locked_run w h) as (r0 & Hval & [->| ->] & Hr).
  2:{ unfold release, bind in Hrun. rewrite Hval in Hrun. simpl in Hrun.
      injection Hrun as <- <-. by left. }
  assert (validator_accepts w h) as Hacc by by apply Hr.
  pose proof Hacc as (hnd & d & Hh & _ & Hd & _).
  destruct (decide (ref_count d = 0)) as [Hz|Hnz].
  { rewrite (release_count_zero w h d Hacc Hd Hz) in Hrun.
    injection Hrun as <- <-. by left. }
  right. unfold refs. rewrite Hd.
  destruct (decide (wrap_u64 (ref_count d - 1) = 0)) as [Hlast|Hmore].
  - destruct (release_teardown w h hnd d Hacc Hh Hd Hnz Hlast)
      as (w2 & hnd2 & Hrel & Hbm & _).
    rewrite Hrel in Hrun. injection Hrun as <- <-.
    split; [done|]. split; [by exists d|]. split; [done|]. by left.
  - rewrite (release_not_last w h d Hacc Hd Hnz Hmore) in Hrun. injection Hrun as <- <-.
    split; [done|]. split; [by exists d|]. split; [done|]. right.
    split; [done|]. eexists. split; done.
Qed.

Lemma map_effect (w w' : World) (h h0 : addr) (r : Z) :
  map h w = Some (r, w') →
  ref_count <$> buffer_map w' !! h0 = ref_count <$> buffer_map w !! h0.
Proof.
  intros Hmap.
  destruct (validate_locked_run w h) as (r0 & Hval & [->| ->] & Hr).
  2:{ unfold map, bind in Hmap. rewrite Hval in Hmap. simpl in Hmap.
      by injection Hmap as _ <-. }
  assert (validator_accepts w h) as Hacc by by apply Hr.
  rewrite (map_validated _ _ Hacc) in Hmap.
  destruct Hacc as (hnd & d & Hh & _ & Hd & _).
  destruct (decide (record_mapped d)) as [Hm|Hm].
  { rewrite (map_locked_mapped _ _ _ Hd Hm) in Hmap. by injection Hmap as _ <-. }
  destruct (map_locked_unmapped w h hnd d Hh Hd Hm) as (b & w1 & _ & Hl & Hrun1).
  rewrite Hrun1 in Hmap. destruct Hl as (_ & Hb1 & _). destruct b.
  - injection Hmap as _ <-. simpl. case_decide; [done|].
    destruct (decide (h0 = h)) as [->|Hne].
    + by rewrite lookup_insert_eq, Hd.
    + by rewrite lookup_insert_ne.
  - injection Hmap as _ <-. by rewrite Hb1.
Qed.

(** One call moves the count of [h] by one when it is a successful
    [retain] or [release] of [h], and leaves it otherwise. *)
Lemma exec_refs (o : op) (w w' : World) (h : addr) (r : Z) :
  exec o w = Some (r, w') →
  counted w h →
  refs w h + (if bool_decide (o = Retain h ∧ r = 0) then 1 else 0) < 2 ^ 64 →
  counted w' h
  ∧ refs w' h = refs w h + (if bool_decide (o = Retain h ∧ r = 0) then 1 else 0)
                         - (if bool_decide (o = Release h ∧ r = 0) then 1 else 0).
Proof.
  intros Hexec Hc Hbound.
  assert (0 ≤ refs w h) as Hpos.
  { revert Hc. unfold counted, refs. destruct (buffer_map w !! h); lia. }
  destruct o as [h'|h'|h'|h']; simpl in Hexec.
  - (* retain *)
    rewrite (bool_decide_eq_false_2 (Retain h' = Release h ∧ _)) by (intros [? _]; done).
    destruct (retain_effect _ _ _ _ Hexec) as [[-> ->] | (-> & d' & Hbm & Hrc)].
    + rewrite bool_decide_eq_false_2 by (intros [_ ?]; done). split; [done | lia].
    + destruct (decide (h' = h)) as [->|Hne].
      * rewrite bool_decide_eq_true_2 in Hbound |- * by done.
        rewrite wrap_u64_small in Hrc by lia.
        unfold counted, refs at 1. rewrite Hbm, lookup_insert_eq. lia.
      * rewrite bool_decide_eq_false_2 by (intros [[= ?] _]; done).
        unfold counted, refs in *. rewrite Hbm, lookup_insert_ne by done.
        split; [done | lia].
  - (* map *)
    rewrite !bool_decide_eq_false_2 by (intros [? _]; done).
    destruct (refs_ext w w' h (map_effect _ _ _ h _ Hexec)) as [-> Hc'].
    split; [by apply Hc' | lia].
  - (* release *)
    rewrite (bool_decide_eq_false_2 (Release h' = Retain h ∧ _)) by (intros [? _]; done).
    destruct (release_effect _ _ _ _ Hexec)
      as [[-> ->] | (-> & Hsome & Hnz & Hcases)].
    + rewrite bool_decide_eq_false_2 by (intros [_ ?]; done). split; [done | lia].
    + destruct (decide (h' = h)) as [->|Hne].
      * rewrite bool_decide_eq_true_2 by done.
        assert (1 ≤ refs w h < 2 ^ 64) as Hrange.
        { revert Hc Hsome. unfold counted, refs.
          destruct (buffer_map w !! h); [done | by intros _ [? ?]]. }
        rewrite wrap_u64_small in Hcases by lia.
        destruct Hcases as [[Hz Hbm] | (Hnz' & d' & Hbm & Hrc)].
        -- unfold counted, refs at 1. rewrite Hbm, lookup_delete_eq. split; [done | lia].
        -- unfold counted, refs at 1. rewrite Hbm, lookup_insert_eq. lia.
      * rewrite bool_decide_eq_false_2 by (intros [[= ?] _]; done).
        unfold counted, refs in *.
        destruct Hcases as [[_ Hbm] | (_ & d' & Hbm & _)]; rewrite Hbm.
        -- rewrite lookup_delete_ne by done. split; [done | lia].
        -- rewrite lookup_insert_ne by done. split; [done | lia].
  - (* validate *)
    rewrite !bool_decide_eq_false_2 by (intros [? _]; done).
    destruct (validate_locked_inv _ _ _ _ Hexec) as [-> _]. split; [done | lia].
Qed.

Lemma run_refs (ops : list op) (w w' : World) (h : addr) (rs : list Z) :
  run ops w = Some (rs, w') →
  counted w h →
  refs w h + successes (Retain h) ops rs < 2 ^ 64 →
  counted w' h
  ∧ refs w' h = refs w h + successes (Retain h) ops rs - successes (Release h) ops rs.
Proof.
  revert w rs. induction ops as [|o ops IH]; intros w rs Hrun Hc Hbound; simpl in Hrun.
  - injection Hrun as <- <-. simpl. split; [done | lia].
  - unfold bind at 1 in Hrun.
    destruct (exec o w) as [[r w1]|] eqn:Hexec; [|done].
    unfold bind at 1 in Hrun.
    destruct (run ops w1) as [[rs1 w2]|] eqn:Hrest; [|done].
    injection Hrun as <- <-. simpl in Hbound |- *.
    pose proof (successes_nonneg (Retain h) ops rs1) as Hk.
    destruct (exec_refs o w w1 h r Hexec Hc ltac:(lia)) as [Hc1 Hr1].
    assert (0 ≤ (if bool_decide (o = Release h ∧ r = 0) then 1 else 0)) as Hj
      by (destruct (bool_decide (o = Release h ∧ r = 0)); lia).
    destruct (IH w1 rs1 Hrest Hc1 ltac:(lia)) as [Hc2 Hr2].
    split; [done | lia].
Qed.

(** C1, amended.  From a state in which the handle has no record, after
    any sequence of calls in which [k] calls of [retain] on the handle and
    [j] calls of [release] on it returned 0, with [k < 2^64]: [j ≤ k], a
    record of the handle exists exactly when [k > j], and the reference
    count of that record is [k − j]. *)
Theorem ref_count_balance (ops : list op) (w w' : World) (handle : addr) (rs : list Z) :
  buffer_map w !! handle = None →
  run ops w = Some (rs, w') →
  successes (Retain handle) ops rs < 2 ^ 64 →
  let k := successes (Retain handle) ops rs in
  let j := successes (Release handle) ops rs in
  j ≤ k
  ∧ (is_Some (buffer_map w' !! handle) ↔ j < k)
  ∧ (∀ d, buffer_map w' !! handle = Some d → ref_count d = k - j).
Proof.
  intros Hnone Hrun Hbound k j.
  assert (counted w handle) as Hc by (unfold counted; by rewrite Hnone).
  assert (refs w handle = 0) as Hzero by (unfold refs; by rewrite Hnone).
  destruct (run_refs ops w w' handle rs Hrun Hc ltac:(lia)) as [Hc' Hr'].
  fold k j in Hr'. rewrite Hzero in Hr'.
  revert Hc' Hr'. unfold counted, refs.
  destruct (buffer_map w' !! handle) as [d|]; intros Hc' Hr'.
  - split; [lia|]. split; [split; [lia | by eexists] |].
    intros d' [= <-]. lia.
  - split; [lia|]. split; [split; [by intros [? ?] | lia] | done].
Qed.

End Counting.

(** C1 on the demonstration platform: retain, retain, release, validate. *)
Lemma ref_count_balance_witness :
  1 ≤ 2
  ∧ (is_Some (buffer_map (Demo.registered 1) !! Demo.h) ↔ 1 < 2)
  ∧ (∀ d, buffer_map (Demo.registered 1) !! Demo.h = Some d → ref_count d = 2 - 1).
Proof.
  apply (ref_count_balance (P := Demo.platform)
           [Retain Demo.h; Retain Demo.h; Release Demo.h; Validate Demo.h]
           Demo.w0 (Demo.registered 1) Demo.h [0; 0; 0; 0]).
  - reflexivity.
  - vm_compute. reflexivity.
  - vm_compute. reflexivity.
Defined.

(** The counter of the demonstration handle, one [retain] after the other. *)
Lemma demo_first_retain :
  retain (P := Demo.platform) Demo.h Demo.w0 = Some (0, Demo.registered 1).
Proof. vm_compute. reflexivity. Qed.

Lemma demo_retain_registered (c : Z) :
  retain (P := Demo.platform) Demo.h (Demo.registered c)
  = Some (0, Demo.registered (wrap_u64 (c + 1))).
Proof.
  rewrite (retain_again (P := Demo.platform) (Demo.registered c) Demo.h
             (set_bases [0; 0; 0] Demo.H) (mk_data [0; 0; 0] [0; 0; 0] c)).
  - unfold upd_buffer_map, Demo.registered. simpl. by rewrite insert_singleton_eq.
  - apply lookup_singleton_eq.
  - vm_compute. discriminate.
  - apply lookup_singleton_eq.
Qed.

Lemma demo_run_retains (n : nat) (c : Z) :
  run (P := Demo.platform) (repeat (Retain Demo.h) n) (Demo.registered (wrap_u64 c))
  = Some (repeat 0 n, Demo.registered (wrap_u64 (c + Z.of_nat n))).
Proof.
  revert c. induction n as [|n IH]; intros c.
  - simpl. by rewrite Z.add_0_r.
  - change (repeat (Retain Demo.h) (S n)) with (Retain Demo.h :: repeat (Retain Demo.h) n).
    change (repeat 0 (S n)) with (0 :: repeat 0 n).
    change (run (Retain Demo.h :: repeat (Retain Demo.h) n))
      with (bind (retain (P := Demo.platform) Demo.h)
              (λ r, bind (run (P := Demo.platform) (repeat (Retain Demo.h) n))
                      (λ rs, ret (r :: rs)))).
    unfold bind at 1. rewrite demo_retain_registered.
    replace (wrap_u64 (wrap_u64 c + 1)) with (wrap_u64 (c + 1))
      by (unfold wrap_u64; by rewrite Zplus_mod_idemp_l).
    unfold bind at 1. rewrite IH.
    replace (c + 1 + Z.of_nat n) with (c + Z.of_nat (S n)) by lia. done.
Qed.

Lemma successes_repeat_same (o : op) (n : nat) :
  successes o (repeat o n) (repeat 0 n) = Z.of_nat n.
Proof.
  induction n as [|n IH].
  - done.
  - change (successes o (repeat o (S n)) (repeat 0 (S n)))
      with ((if bool_decide (o = o ∧ 0 = 0) then 1 else 0)
            + successes o (repeat o n) (repeat 0 n)).
    rewrite bool_decide_eq_true_2 by done. lia.
Qed.

Lemma successes_repeat_other (o o' : op) (n : nat) (rs : list Z) :
  o' ≠ o → successes o (repeat o' n) rs = 0.
Proof.
  intros Hne. revert rs. induction n as [|n IH]; intros [|r rs]; try done.
  change (successes o (repeat o' (S n)) (r :: rs))
    with ((if bool_decide (o' = o ∧ r = 0) then 1 else 0) + successes o (repeat o' n) rs).
  rewrite bool_decide_eq_false_2 by (intros [? _]; done). by rewrite IH.
Qed.

(** C1 as stated fails: [ref_count] is a [uint64_t].  After [2^64] calls of
    [retain] on one handle, all of which return 0, and no [release], the
    record exists and its reference count is 0, not [2^64]. *)
Lemma ref_count_law_counterexample :
  ¬ ref_count_law (P := Demo.platform)
      (Retain Demo.h :: repeat (Retain Demo.h) (Z.to_nat (2 ^ 64 - 1))) Demo.w0 Demo.h.
Proof.
  assert (Z.of_nat (Z.to_nat (2 ^ 64 - 1)) = 2 ^ 64 - 1) as Hn by (by apply Z2Nat.id).
  revert Hn. generalize (Z.to_nat (2 ^ 64 - 1)). intros n Hn Hlaw.
  specialize (Hlaw (0 :: repeat 0 n) (Demo.registered 0) eq_refl).
  change (successes (Retain Demo.h) (Retain Demo.h :: repeat (Retain Demo.h) n)
            (0 :: repeat 0 n))
    with (1 + successes (Retain Demo.h) (repeat (Retain Demo.h) n) (repeat 0 n)) in Hlaw.
  change (successes (Release Demo.h) (Retain Demo.h :: repeat (Retain Demo.h) n)
            (0 :: repeat 0 n))
    with (0 + successes (Release Demo.h) (repeat (Retain Demo.h) n) (repeat 0 n)) in Hlaw.
  rewrite successes_repeat_same, successes_repeat_other, Hn in Hlaw by done.
  destruct Hlaw as [_ Hcount].
  - change (run (Retain Demo.h :: repeat (Retain Demo.h) n))
      with (bind (retain (P := Demo.platform) Demo.h)
              (λ r, bind (run (P := Demo.platform) (repeat (Retain Demo.h) n))
                      (λ rs, ret (r :: rs)))).
    unfold bind at 1. rewrite demo_first_retain.
    change (Demo.registered 1) with (Demo.registered (wrap_u64 1)).
    unfold bind at 1. rewrite demo_run_retains, Hn. done.
  - done.
  - specialize (Hcount (mk_data [0; 0; 0] [0; 0; 0] 0) (lookup_singleton_eq _ _)).
    simpl in Hcount. discriminate Hcount.
Qed.


(* ===================================================================== *)
(** ** The layout of the records *)

Section Layout.
Context `{P : Platform}.

Lemma records_laid_out_insert (w w' : World) (h : addr) (d : MappedData) :
  records_laid_out w →
  buffer_map w' = <[h := d]> (buffer_map w) →
  length (data_bases d) = MAX_BUFFER_FDS → length (data_alloc_sizes d) = MAX_BUFFER_FDS →
  records_laid_out w'.
Proof.
  intros Hlay Hbm Hb Ha h0 d0. rewrite Hbm.
  destruct (decide (h0 = h)) as [->|Hne].
  - rewrite lookup_insert_eq. by intros [= <-].
  - rewrite lookup_insert_ne by done. apply Hlay.
Qed.

(** Every call keeps the arrays of the records at [MAX_BUFFER_FDS] slots;
    the table is empty when the process starts. *)
Lemma exec_laid_out (o : op) (w w' : World) (r : Z) :
  exec o w = Some (r, w') → records_laid_out w → records_laid_out w'.
Proof.
  intros Hexec Hlay. destruct o as [h|h|h|h]; simpl in Hexec.
  - (* retain *)
    destruct (handles w !! h) as [hnd|] eqn:Hh.
    2:{ rewrite retain_ill_formed in Hexec by (unfold ill_formed; by rewrite Hh).
        by injection Hexec as _ <-. }
    destruct (decide (private_handle_validate hnd < 0)) as [Hv|Hv].
    { rewrite retain_ill_formed in Hexec by (unfold ill_formed; by rewrite Hh).
      by injection Hexec as _ <-. }
    destruct (buffer_map w !! h) as [d|] eqn:Hd.
    + rewrite (retain_again w h hnd d Hh Hv Hd) in Hexec. injection Hexec as _ <-.
      destruct (Hlay h d Hd) as [Hb Ha].
      by apply (records_laid_out_insert w _ h (set_ref_count (wrap_u64 (ref_count d + 1)) d)).
    + rewrite (retain_fresh w h hnd Hh Hv Hd) in Hexec. injection Hexec as _ <-.
      apply (records_laid_out_insert w _ h (set_ref_count 1 new_MappedData));
        [done | done | apply length_replicate | apply length_replicate].
  - (* map *)
    destruct (validate_locked_run w h) as (r0 & Hval & [->| ->] & Hr).
    2:{ unfold map, bind in Hexec. rewrite Hval in Hexec. simpl in Hexec.
        by injection Hexec as _ <-. }
    assert (validator_accepts w h) as Hacc by by apply Hr.
    rewrite (map_validated _ _ Hacc) in Hexec.
    destruct Hacc as (hnd & d & Hh & _ & Hd & _).
    destruct (decide (record_mapped d)) as [Hm|Hm].
    { rewrite (map_locked_mapped _ _ _ Hd Hm) in Hexec. by injection Hexec as _ <-. }
    destruct (map_locked_unmapped w h hnd d Hh Hd Hm) as (b & w1 & _ & Hl & Hrun1).
    rewrite Hrun1 in Hexec. destruct Hl as (_ & Hb1 & _). destruct b.
    + injection Hexec as _ <-. destruct (Hlay h d Hd) as [Hb Ha].
      destruct (decide (fst (ion_map (trace w1) hnd) ≠ 0)) as [Herr|Hok].
      * exact Hlay.
      * eapply (records_laid_out_insert w _ h); [done | done | |].
        -- simpl. by rewrite fill_length.
        -- simpl. by rewrite fill_length.
    + injection Hexec as _ <-. unfold records_laid_out. by rewrite Hb1.
  - (* release *)
    destruct (validate_locked_run w h) as (r0 & Hval & [->| ->] & Hr).
    2:{ unfold release, bind in Hexec. rewrite Hval in Hexec. simpl in Hexec.
        by injection Hexec as _ <-. }
    assert (validator_accepts w h) as Hacc by by apply Hr.
    pose proof Hacc as (hnd & d & Hh & _ & Hd & _).
    destruct (decide (ref_count d = 0)) as [Hz|Hnz].
    { rewrite (release_count_zero w h d Hacc Hd Hz) in Hexec. by injection Hexec as _ <-. }
    destruct (decide (wrap_u64 (ref_count d - 1) = 0)) as [Hlast|Hmore].
    + destruct (release_teardown w h hnd d Hacc Hh Hd Hnz Hlast)
        as (w2 & hnd2 & Hrel & Hbm & _).
      rewrite Hrel in Hexec. injection Hexec as _ <-.
      intros h0 d0. rewrite Hbm. intros Hd0. apply (Hlay h0 d0).
      destruct (decide (h0 = h)) as [->|Hne].
      * by rewrite lookup_delete_eq in Hd0.
      * by rewrite lookup_delete_ne in Hd0.
    + rewrite (release_not_last w h d Hacc Hd Hnz Hmore) in Hexec. injection Hexec as _ <-.
      destruct (Hlay h d Hd) as [Hb Ha].
      by apply (records_laid_out_insert w _ h (set_ref_count (wrap_u64 (ref_count d - 1)) d)).
  - (* validate *)
    destruct (validate_locked_inv _ _ _ _ Hexec) as [-> _]. done.
Qed.

Lemma run_laid_out (ops : list op) (w w' : World) (rs : list Z) :
  run ops w = Some (rs, w') → records_laid_out w → records_laid_out w'.
Proof.
  revert w rs. induction ops as [|o ops IH]; intros w rs Hrun Hlay; simpl in Hrun.
  - by injection Hrun as _ <-.
  - unfold bind at 1 in Hrun.
    destruct (exec o w) as [[r w1]|] eqn:Hexec; [|done].
    unfold bind at 1 in Hrun.
    destruct (run ops w1) as [[rs1 w2]|] eqn:Hrest; [|done].
    injection Hrun as _ <-.
    eapply IH; [exact Hrest|]. by eapply exec_laid_out.
Qed.

(** The four operations always return: no call follows a pointer that the
    handle's own check has not passed. *)
Lemma exec_total (o : op) (w : World) : ∃ r w', exec o w = Some (r, w').
Proof.
  destruct o as [h|h|h|h]; simpl.
  - (* retain *)
    destruct (handles w !! h) as [hnd|] eqn:Hh.
    2:{ eexists _, _. apply retain_ill_formed. unfold ill_formed. by rewrite Hh. }
    destruct (decide (private_handle_validate hnd < 0)) as [Hv|Hv].
    { eexists _, _. apply retain_ill_formed. unfold ill_formed. by rewrite Hh. }
    destruct (buffer_map w !! h) as [d|] eqn:Hd.
    + eexists _, _. by eapply retain_again.
    + eexists _, _. by eapply retain_fresh.
  - (* map *)
    destruct (validate_locked_run w h) as (r0 & Hval & [->| ->] & Hr).
    2:{ eexists _, _. unfold map, bind. rewrite Hval. simpl. done. }
    assert (validator_accepts w h) as Hacc by by apply Hr.
    rewrite (map_validated _ _ Hacc).
    destruct Hacc as (hnd & d & Hh & _ & Hd & _).
    destruct (decide (record_mapped d)) as [Hm|Hm].
    { eexists _, _. by eapply map_locked_mapped. }
    destruct (map_locked_unmapped w h hnd d Hh Hd Hm) as (b & w1 & _ & _ & ->).
    destruct b; eexists _, _; done.
  - (* release *)
    destruct (validate_locked_run w h) as (r0 & Hval & [->| ->] & Hr).
    2:{ eexists _, _. unfold release, bind. rewrite Hval. simpl. done. }
    assert (validator_accepts w h) as Hacc by by apply Hr.
    pose proof Hacc as (hnd & d & Hh & _ & Hd & _).
    destruct (decide (ref_count d = 0)) as [Hz|Hnz].
    { eexists _, _. by eapply release_count_zero. }
    destruct (decide (wrap_u64 (ref_count d - 1) = 0)) as [Hlast|Hmore].
    + destruct (release_teardown w h hnd d Hacc Hh Hd Hnz Hlast) as (w2 & _ & Hrel & _).
      by eexists _, _.
    + eexists _, _. by eapply release_not_last.
  - (* validate *)
    destruct (validate_locked_run w h) as (r0 & Hval & _). by eexists _, _.
Qed.

Lemma run_total (ops : list op) (w : World) : ∃ rs w', run ops w = Some (rs, w').
Proof.
  revert w. induction ops as [|o ops IH]; intros w; simpl.
  - by eexists _, _.
  - unfold bind at 1. destruct (exec_total o w) as (r & w1 & ->).
    unfold bind at 1. destruct (IH w1) as (rs & w2 & ->). by eexists _, _.
Qed.

Lemma empty_laid_out (hs : gmap N private_handle_t) (tr : list event) :
  records_laid_out (mk_world hs ∅ tr).
Proof. intros h d Hd. simpl in Hd. by rewrite lookup_empty in Hd. Qed.

End Layout.

(* ===================================================================== *)
(** ** The scenarios of the specification, on the demonstration platform *)

(** What is left of the advertised size check when the size does not fit an
    [off_t]: an empty descriptor passes for a region of [2^64 - 4096] bytes. *)
Example dmabuf_sanity_check_off_t_wrap :
  (∃ w', dmabuf_sanity_check (P := Demo.platform) Demo.h Demo.w_wrap = Some (true, w'))
  ∧ ¬ length_within (P := Demo.platform) 0 (2 ^ 64 - 4096).
Proof.
  split.
  - eexists. vm_compute. reflexivity.
  - unfold length_within. simpl. lia.
Qed.

(** S1, S3: retain, map, map, validate, release.  Every call returns 0, the
    mapper is asked once, and at the end the record is gone and the scratch
    slots are clear. *)
Example scenario_lifecycle :
  ∃ w', run (P := Demo.platform)
          [Retain Demo.h; Map Demo.h; Map Demo.h; Validate Demo.h; Release Demo.h] Demo.w0
        = Some ([0; 0; 0; 0; 0], w')
        ∧ buffer_map w' !! Demo.h = None
        ∧ (bases <$> handles w' !! Demo.h) = Some [0; 0; 0]
        ∧ (attr_base <$> handles w' !! Demo.h) = Some 0
        ∧ ion_map_calls Demo.h (trace w') = 1%nat.
Proof. eexists. vm_compute. repeat split; reflexivity. Qed.

(** S2: the descriptor is longer than advertised by more than a page. *)
Example scenario_sanity_rejection :
  ∃ w', run (P := Demo.platform) [Map Demo.h; Release Demo.h] Demo.w_big
        = Some ([- EINVAL; 0], w')
        ∧ buffer_map w' !! Demo.h = None
        ∧ ion_map_calls Demo.h (trace w') = 0%nat.
Proof. eexists. vm_compute. repeat split; reflexivity. Qed.

(** S4, S5: two retains and two releases, then a release too many. *)
Example scenario_double_retain :
  ∃ w', run (P := Demo.platform)
          [Release Demo.h; Retain Demo.h; Retain Demo.h; Release Demo.h; Validate Demo.h;
           Release Demo.h; Validate Demo.h; Map Demo.h; Release Demo.h] Demo.w0
        = Some ([- EINVAL; 0; 0; 0; 0; 0; - EINVAL; - EINVAL; - EINVAL], w')
        ∧ buffer_map w' !! Demo.h = None.
Proof. eexists. vm_compute. repeat split; reflexivity. Qed.

(** S6: the scratch slot of a mapped handle is overwritten. *)
Example scenario_tampered_scratch :
  run (P := Demo.platform) [Validate Demo.h; Release Demo.h; Map Demo.h] Demo.w_slot0
  = Some ([- EINVAL; - EINVAL; - EINVAL], Demo.w_slot0).
Proof. vm_compute. reflexivity. Qed.

(* ===================================================================== *)
(** ** Further properties of the registry *)

Section Further.
Context `{P : Platform}.

(** The last [release] writes to no handle but its own. *)
Lemma release_teardown_handles (w : World) (handle : addr) (hnd : private_handle_t)
    (d : MappedData) :
  validator_accepts w handle →
  handles w !! handle = Some hnd →
  buffer_map w !! handle = Some d →
  ref_count d ≠ 0 → wrap_u64 (ref_count d - 1) = 0 →
  ∃ w', release handle w = Some (0, w')
        ∧ ∀ h', h' ≠ handle → handles w' !! h' = handles w !! h'.
Proof.
  intros Hacc Hh Hd Hnz Hzero. unfold release, bind at 1.
  rewrite (validate_locked_accepts _ _ Hacc). simpl.
  unfold bind at 1, find, gets. rewrite Hd.
  rewrite decide_False by done. rewrite Hzero.
  unfold bind at 1, write_record, modify. simpl.
  unfold bind at 1.
  destruct (decide (record_mapped d)) as [Hm|Hm].
  - rewrite (decide_True (P := aget (data_bases d) 0 ≠ 0)) by exact Hm.
    unfold bind at 1. erewrite mali_gralloc_ion_unmap_run by exact Hh.
    unfold_monad. simpl. rewrite lookup_insert_eq. simpl.
    destruct (decide (attr_base hnd ≠ 0)) as [Ha|Ha]; simpl.
    + eexists. split; [done|]. simpl. intros h' Hne.
      by rewrite !lookup_insert_ne.
    + eexists. split; [done|]. simpl. intros h' Hne.
      by rewrite !lookup_insert_ne.
  - rewrite (decide_False (P := aget (data_bases d) 0 ≠ 0)) by exact Hm.
    unfold_monad. simpl. rewrite Hh. simpl.
    destruct (decide (attr_base hnd ≠ 0)) as [Ha|Ha]; simpl.
    + eexists. split; [done|]. simpl. intros h' Hne.
      by rewrite !lookup_insert_ne.
    + eexists. split; [done|]. done.
Qed.

(** X1.  A call on one handle returns, and leaves the record and the handle
    object of every other handle as they were. *)
Theorem exec_other_handles (o : op) (w : World) (h' : addr) :
  op_handle o ≠ h' →
  ∃ r w', exec o w = Some (r, w')
          ∧ buffer_map w' !! h' = buffer_map w !! h'
          ∧ handles w' !! h' = handles w !! h'.
Proof.
  intros Hne. destruct o as [h|h|h|h]; simpl in Hne |- *.
  - (* retain *)
    destruct (handles w !! h) as [hnd|] eqn:Hh.
    2:{ eexists _, _. split; [|done].
        apply retain_ill_formed. unfold ill_formed. by rewrite Hh. }
    destruct (decide (private_handle_validate hnd < 0)) as [Hv|Hv].
    { eexists _, _. split; [|done].
      apply retain_ill_formed. unfold ill_formed. by rewrite Hh. }
    destruct (buffer_map w !! h) as [d|] eqn:Hd.
    + eexists _, _. split; [by eapply retain_again|]. simpl.
      split; [by rewrite lookup_insert_ne | done].
    + eexists _, _. split; [by eapply retain_fresh|]. simpl.
      split; by rewrite lookup_insert_ne.
  - (* map *)
    destruct (validate_locked_run w h) as (r0 & Hval & [->| ->] & Hr).
    2:{ eexists _, _. unfold map, bind. rewrite Hval. simpl. done. }
    assert (validator_accepts w h) as Hacc by by apply Hr.
    rewrite (map_validated _ _ Hacc).
    destruct Hacc as (hnd & d & Hh & _ & Hd & _).
    destruct (decide (record_mapped d)) as [Hm|Hm].
    { eexists _, _. split; [by eapply map_locked_mapped | done]. }
    destruct (map_locked_unmapped w h hnd d Hh Hd Hm)
      as (b & w1 & _ & (Hh1 & Hb1 & _) & ->).
    destruct b.
    + eexists _, _. split; [done|]. simpl. split.
      * case_decide; [done | by rewrite lookup_insert_ne].
      * by rewrite lookup_insert_ne.
    + eexists _, _. split; [done|]. by rewrite Hh1, Hb1.
  - (* release *)
    destruct (validate_locked_run w h) as (r0 & Hval & [->| ->] & Hr).
    2:{ eexists _, _. unfold release, bind. rewrite Hval. simpl. done. }
    assert (validator_accepts w h) as Hacc by by apply Hr.
    pose proof Hacc as (hnd & d & Hh & _ & Hd & _).
    destruct (decide (ref_count d = 0)) as [Hz|Hnz].
    { eexists _, _. split; [by eapply release_count_zero | done]. }
    destruct (decide (wrap_u64 (ref_count d - 1) = 0)) as [Hlast|Hmore].
    + destruct (release_teardown w h hnd d Hacc Hh Hd Hnz Hlast)
        as (w2 & _ & Hrel & Hbm & _).
      destruct (release_teardown_handles w h hnd d Hacc Hh Hd Hnz Hlast)
        as (w3 & Hrel' & Hframe).
      rewrite Hrel in Hrel'. injection Hrel' as <-.
      eexists _, _. split; [exact Hrel|].
      split; [by rewrite Hbm, lookup_delete_ne | by apply Hframe].
    + eexists _, _. split; [by eapply release_not_last|]. simpl.
      split; [by rewrite lookup_insert_ne | done].
  - (* validate *)
    destruct (validate_locked_run w h) as (r0 & Hval & _). by eexists _, _.
Qed.

(** X2.  The four entry points always return, which is to say that none of
    them follows a handle pointer that the handle's own check has not passed.
    [retain], [release] and [validate] return 0 or [-EINVAL]; [map] returns 0,
    [-EINVAL], or the code, not zero, that the mapper gave. *)
Theorem entry_points_return (handle : addr) (w : World) :
  (∃ r w', mali_gralloc_reference_retain handle w = Some (r, w')
           ∧ (r = 0 ∨ r = - EINVAL))
  ∧ (∃ r w', mali_gralloc_reference_map handle w = Some (r, w')
             ∧ (r = 0 ∨ r = - EINVAL
                ∨ ∃ tr hnd, handles w !! handle = Some hnd
                            ∧ r = fst (ion_map tr hnd) ∧ r ≠ 0))
  ∧ (∃ r w', mali_gralloc_reference_release handle w = Some (r, w')
             ∧ (r = 0 ∨ r = - EINVAL))
  ∧ (∃ r w', mali_gralloc_reference_validate handle w = Some (r, w')
             ∧ (r = 0 ∨ r = - EINVAL)).
Proof.
  unfold mali_gralloc_reference_retain, mali_gralloc_reference_map,
    mali_gralloc_reference_release, mali_gralloc_reference_validate.
  split; [|split; [|split]].
  - destruct (handles w !! handle) as [hnd|] eqn:Hh.
    2:{ eexists _, _. split; [|by right].
        apply retain_ill_formed. unfold ill_formed. by rewrite Hh. }
    destruct (decide (private_handle_validate hnd < 0)) as [Hv|Hv].
    { eexists _, _. split; [|by right].
      apply retain_ill_formed. unfold ill_formed. by rewrite Hh. }
    destruct (buffer_map w !! handle) as [d|] eqn:Hd.
    + eexists _, _. split; [by eapply retain_again | by left].
    + eexists _, _. split; [by eapply retain_fresh | by left].
  - destruct (validate_locked_run w handle) as (r0 & Hval & [->| ->] & Hr).
    2:{ eexists _, _. unfold map, bind. rewrite Hval. simpl. split; [done|]. by right; left. }
    assert (validator_accepts w handle) as Hacc by by apply Hr.
    rewrite (map_validated _ _ Hacc).
    destruct Hacc as (hnd & d & Hh & _ & Hd & _).
    destruct (decide (record_mapped d)) as [Hm|Hm].
    { eexists _, _. split; [by eapply map_locked_mapped | by left]. }
    destruct (map_locked_unmapped w handle hnd d Hh Hd Hm) as (b & w1 & _ & _ & ->).
    destruct b.
    + eexists _, _. split; [done|]. simpl.
      destruct (decide (fst (ion_map (trace w1) hnd) = 0)) as [Hz|Hnz]; [by left|].
      right; right. by exists (trace w1), hnd.
    + eexists _, _. split; [done|]. by right; left.
  - destruct (validate_locked_run w handle) as (r0 & Hval & [->| ->] & Hr).
    2:{ eexists _, _. unfold release, bind. rewrite Hval. simpl. split; [done | by right]. }
    assert (validator_accepts w handle) as Hacc by by apply Hr.
    pose proof Hacc as (hnd & d & Hh & _ & Hd & _).
    destruct (decide (ref_count d = 0)) as [Hz|Hnz].
    { eexists _, _. split; [by eapply release_count_zero | by right]. }
    destruct (decide (wrap_u64 (ref_count d - 1) = 0)) as [Hlast|Hmore].
    + destruct (release_teardown w handle hnd d Hacc Hh Hd Hnz Hlast) as (w2 & _ & Hrel & _).
      eexists _, _. split; [exact Hrel | by left].
    + eexists _, _. split; [by eapply release_not_last | by left].
  - destruct (validate_locked_run w handle) as (r0 & Hval & Hcases & _).
    by eexists _, _.
Qed.

(** X3.  [map] never maps again a record that is in the mapped state: it
    returns 0 or [-EINVAL], and the whole state, the calls made outside
    included, is as it was, whether the handle passes the validator or not. *)
Theorem map_mapped_unchanged (w : World) (handle : addr) (d : MappedData) :
  buffer_map w !! handle = Some d →
  record_mapped d →
  ∃ r, map handle w = Some (r, w) ∧ (r = 0 ∨ r = - EINVAL).
Proof.
  intros Hd Hm.
  destruct (validate_locked_run w handle) as (r0 & Hval & [->| ->] & Hr).
  - exists 0. split; [|by left].
    rewrite map_validated by by apply Hr. by eapply map_locked_mapped.
  - exists (- EINVAL). split; [|by right].
    unfold map, bind. rewrite Hval. done.
Qed.

(** X4.  A handle that was never retained, or whose record has been erased,
    is refused by [validate] and by [map] with [-EINVAL]; nothing is changed
    and nothing is called outside. *)
Theorem unregistered_refused (w : World) (handle : addr) :
  buffer_map w !! handle = None →
  validate handle w = Some (- EINVAL, w) ∧ map handle w = Some (- EINVAL, w).
Proof.
  intros Hnone.
  assert (¬ validator_accepts w handle) as Hrej.
  { intros (hnd & d & _ & _ & Hd & _). congruence. }
  split; [by apply validate_locked_rejects | by apply map_not_validated].
Qed.

(** X5.  When the record is in the mapped state and a slot
    [i < MAX_BUFFER_FDS] of the handle differs from the record's, in [bases]
    or in [alloc_sizes], then [validate], [map] and [release] all return
    [-EINVAL] and change nothing: the reference is not dropped and nothing is
    unmapped. *)
Theorem mismatch_refused (w : World) (handle : addr) (hnd : private_handle_t)
    (d : MappedData) (i : nat) :
  handles w !! handle = Some hnd →
  buffer_map w !! handle = Some d →
  record_mapped d →
  (i < MAX_BUFFER_FDS)%nat →
  aget (bases hnd) i ≠ aget (data_bases d) i
  ∨ aget (alloc_sizes hnd) i ≠ aget (data_alloc_sizes d) i →
  validate handle w = Some (- EINVAL, w)
  ∧ map handle w = Some (- EINVAL, w)
  ∧ release handle w = Some (- EINVAL, w).
Proof.
  intros Hh Hd Hm Hi Hdiff.
  assert (¬ validator_accepts w handle) as Hrej.
  { intros (hnd' & d' & Hh' & _ & Hd' & Hall & _).
    rewrite Hh in Hh'. injection Hh' as <-.
    rewrite Hd in Hd'. injection Hd' as <-.
    destruct (Hall Hm i Hi) as [Hb Ha]. by destruct Hdiff. }
  split; [by apply validate_locked_rejects|].
  split; [by apply map_not_validated | by apply release_not_validated].
Qed.

End Further.

(** X1 on the demonstration platform: the last release of [h] beside the
    record of [h2]. *)
Lemma exec_other_handles_witness :
  ∃ r w', exec (P := Demo.platform) (Release Demo.h) Demo.w_two = Some (r, w')
          ∧ buffer_map w' !! Demo.h2 = buffer_map Demo.w_two !! Demo.h2
          ∧ handles w' !! Demo.h2 = handles Demo.w_two !! Demo.h2.
Proof.
  apply (exec_other_handles (P := Demo.platform) (Release Demo.h) Demo.w_two Demo.h2).
  vm_compute. discriminate.
Defined.

(** X3 on the demonstration platform: a mapped record whose handle has been
    overwritten. *)
Lemma map_mapped_unchanged_witness :
  ∃ r, map (P := Demo.platform) Demo.h Demo.w_slot0 = Some (r, Demo.w_slot0)
       ∧ (r = 0 ∨ r = - EINVAL).
Proof.
  apply (map_mapped_unchanged (P := Demo.platform) Demo.w_slot0 Demo.h
           (mk_data [7340032; 0; 0] [4096; 0; 0] 1)).
  - reflexivity.
  - vm_compute. discriminate.
Defined.

(** X4 on the demonstration platform: a handle never retained. *)
Lemma unregistered_refused_witness :
  validate (P := Demo.platform) Demo.h Demo.w0 = Some (- EINVAL, Demo.w0)
  ∧ map (P := Demo.platform) Demo.h Demo.w0 = Some (- EINVAL, Demo.w0).
Proof.
  apply (unregistered_refused (P := Demo.platform) Demo.w0 Demo.h). reflexivity.
Defined.

(** X5 on the demonstration platform: slot 0 of a mapped handle overwritten. *)
Lemma mismatch_refused_witness :
  validate (P := Demo.platform) Demo.h Demo.w_slot0 = Some (- EINVAL, Demo.w_slot0)
  ∧ map (P := Demo.platform) Demo.h Demo.w_slot0 = Some (- EINVAL, Demo.w_slot0)
  ∧ release (P := Demo.platform) Demo.h Demo.w_slot0 = Some (- EINVAL, Demo.w_slot0).
Proof.
  apply (mismatch_refused (P := Demo.platform) Demo.w_slot0 Demo.h
           (set_bases [4096; 0; 0] Demo.H) (mk_data [7340032; 0; 0] [4096; 0; 0] 1) 0).
  - reflexivity.
  - reflexivity.
  - vm_compute. discriminate.
  - simpl. lia.
  - left. vm_compute. discriminate.
Defined.

(* ===================================================================== *)
(** ** How the operations compose *)

Lemma aget_replicate_zero (n i : nat) : aget (replicate n 0) i = 0.
Proof.
  unfold aget. destruct (replicate n 0 !! i) as [x|] eqn:Hx; [|done].
  apply lookup_replicate in Hx as [-> _]. done.
Qed.

Lemma successes_le_length (o : op) (ops : list op) (rs : list Z) :
  successes o ops rs ≤ Z.of_nat (length ops).
Proof.
  revert rs. induction ops as [|o' ops IH]; intros [|r rs]; simpl; try lia.
  specialize (IH rs). destruct (bool_decide (o' = o ∧ r = 0)); lia.
Qed.

Section Composition.
Context `{P : Platform}.

(** The validator does not look at the reference count. *)
Lemma validator_accepts_recount (w w' : World) (h : addr) (d : MappedData) (c : Z) :
  validator_accepts w h →
  buffer_map w !! h = Some d →
  handles w' = handles w →
  buffer_map w' !! h = Some (set_ref_count c d) →
  validator_accepts w' h.
Proof.
  intros (hnd & d0 & Hh & Hwf & Hd0 & Hm & Hu) Hd Hhs Hd'.
  rewrite Hd in Hd0. injection Hd0 as <-.
  exists hnd, (set_ref_count c d). rewrite Hhs. do 3 (split; [done|]).
  split; [exact Hm | exact Hu].
Qed.

(** X6.  A [map] that returns 0 on a record that was not mapped has asked
    the mapper exactly once, and leaves every slot [i < MAX_BUFFER_FDS] of the
    record equal to that of the handle, in [bases] and in [alloc_sizes]; the
    reference count, and the descriptors, sizes and [attr_base] of the handle,
    are as they were. *)
Theorem map_success_mirrors (w w' : World) (handle : addr) (hnd : private_handle_t)
    (d : MappedData) :
  handles w !! handle = Some hnd →
  buffer_map w !! handle = Some d →
  ¬ record_mapped d →
  length (data_bases d) = MAX_BUFFER_FDS →
  length (data_alloc_sizes d) = MAX_BUFFER_FDS →
  map handle w = Some (0, w') →
  ∃ hnd' d',
    handles w' !! handle = Some hnd'
    ∧ buffer_map w' !! handle = Some d'
    ∧ ref_count d' = ref_count d
    ∧ (∀ i : nat, (i < MAX_BUFFER_FDS)%nat → slot_matches hnd' d' i)
    ∧ fds hnd' = fds hnd ∧ fd_count hnd' = fd_count hnd
    ∧ alloc_sizes hnd' = alloc_sizes hnd ∧ attr_size hnd' = attr_size hnd
    ∧ attr_base hnd' = attr_base hnd
    ∧ ion_map_calls handle (trace w') = S (ion_map_calls handle (trace w)).
Proof.
  intros Hh Hd Hm Hlb Hla Hmap.
  destruct (validate_locked_run w handle) as (r0 & Hval & [->| ->] & Hr).
  2:{ unfold map, bind in Hmap. rewrite Hval in Hmap. simpl in Hmap.
      injection Hmap as Hbad _. unfold EINVAL in Hbad. lia. }
  rewrite map_validated in Hmap by by apply Hr.
  destruct (map_locked_unmapped w handle hnd d Hh Hd Hm) as (b & w1 & _ & Hl & Hrun).
  rewrite Hrun in Hmap.
  destruct b; [|injection Hmap as Hbad _; unfold EINVAL in Hbad; lia].
  injection Hmap as Hzero <-. simpl.
  rewrite decide_False by (rewrite Hzero; by intros ?).
  eexists _, _. split; [apply lookup_insert_eq|]. split; [apply lookup_insert_eq|].
  split; [done|]. split.
  { intros i Hi. unfold slot_matches. simpl. by rewrite !fill_whole. }
  do 5 (split; [done|]).
  rewrite ion_map_calls_app, ion_map_calls_one, (ion_map_calls_lseek_only _ _ _ Hl). lia.
Qed.

(** X7.  When the sanity check passes and the mapper fails, [map] returns the
    code of the mapper; the table is as it was, so the record keeps its count
    and stays unmapped, and the scratch slots of the handle are as the mapper
    left them. *)
Theorem map_mapper_failure (w w1 : World) (handle : addr) (hnd : private_handle_t)
    (d : MappedData) :
  validator_accepts w handle →
  handles w !! handle = Some hnd →
  buffer_map w !! handle = Some d →
  ¬ record_mapped d →
  dmabuf_sanity_check handle w = Some (true, w1) →
  fst (ion_map (trace w1) hnd) ≠ 0 →
  map handle w =
    Some (fst (ion_map (trace w1) hnd),
          mk_world (<[handle := set_bases (snd (ion_map (trace w1) hnd)) hnd]> (handles w))
                   (buffer_map w)
                   (trace w1 ++ [EvIonMap handle])).
Proof.
  intros Hacc Hh Hd Hm Hsanity Herr.
  rewrite (map_validated _ _ Hacc).
  destruct (map_locked_unmapped w handle hnd d Hh Hd Hm) as (b & w2 & Hs & _ & ->).
  rewrite Hsanity in Hs. injection Hs as <- <-. simpl.
  by rewrite decide_True.
Qed.

(** X8.  When the mapper fails and leaves an address in a scratch slot
    [i < MAX_BUFFER_FDS] of the handle, the handle is refused from then on:
    [validate], [map] and [release] return [-EINVAL] and change nothing, so
    the reference that was taken cannot be given back. *)
Theorem map_failure_blocks_handle (w w1 : World) (handle : addr) (hnd : private_handle_t)
    (d : MappedData) (i : nat) :
  validator_accepts w handle →
  handles w !! handle = Some hnd →
  buffer_map w !! handle = Some d →
  ¬ record_mapped d →
  dmabuf_sanity_check handle w = Some (true, w1) →
  fst (ion_map (trace w1) hnd) ≠ 0 →
  (i < MAX_BUFFER_FDS)%nat →
  aget (snd (ion_map (trace w1) hnd)) i ≠ 0 →
  ∃ w', map handle w = Some (fst (ion_map (trace w1) hnd), w')
        ∧ validate handle w' = Some (- EINVAL, w')
        ∧ map handle w' = Some (- EINVAL, w')
        ∧ release handle w' = Some (- EINVAL, w').
Proof.
  intros Hacc Hh Hd Hm Hsanity Herr Hi Hleft.
  rewrite (map_validated _ _ Hacc).
  destruct (map_locked_unmapped w handle hnd d Hh Hd Hm) as (b & w2 & Hs & _ & ->).
  rewrite Hsanity in Hs. injection Hs as <- <-. simpl.
  rewrite decide_True by done.
  eexists. split; [done|].
  match goal with |- validate _ ?w' = _ ∧ _ =>
    assert (¬ validator_accepts w' handle) as Hrej end.
  { intros (hnd' & d' & Hh' & _ & Hd' & _ & Hclear). simpl in Hh', Hd'.
    rewrite lookup_insert_eq in Hh'. injection Hh' as <-.
    rewrite Hd in Hd'. injection Hd' as <-.
    destruct (Hclear Hm i Hi) as [Hzero _]. done. }
  split; [by apply validate_locked_rejects|].
  split; [by apply map_not_validated | by apply release_not_validated].
Qed.

(** X9.  [retain] on a handle that has a record does not run the validator
    and does not touch the handle: it returns 0 for every well formed handle,
    adds one to the count modulo [2^64], keeps the cached addresses and sizes
    of the record, calls nothing outside, and a handle that passed the
    validator passes it afterwards. *)
Theorem retain_registered (w : World) (handle : addr) (hnd : private_handle_t)
    (d : MappedData) :
  handles w !! handle = Some hnd →
  well_formed hnd →
  buffer_map w !! handle = Some d →
  ∃ w', retain handle w = Some (0, w')
        ∧ handles w' = handles w
        ∧ trace w' = trace w
        ∧ buffer_map w' =
            <[handle := mk_data (data_bases d) (data_alloc_sizes d)
                                (wrap_u64 (ref_count d + 1))]> (buffer_map w)
        ∧ (validator_accepts w handle → validator_accepts w' handle).
Proof.
  intros Hh Hwf Hd. eexists. split; [by eapply retain_again|]. simpl.
  do 3 (split; [done|]). intros Hacc.
  eapply (validator_accepts_recount w _ handle d); [done | done | done |].
  simpl. apply lookup_insert_eq.
Qed.

(** X10.  A [release] that leaves references behind only lowers the count:
    nothing is unmapped, the handle is not written, the record keeps its
    cached addresses and sizes, and the handle passes the validator as
    before. *)
Theorem release_keeps_mapping (w : World) (handle : addr) (d : MappedData) :
  validator_accepts w handle →
  buffer_map w !! handle = Some d →
  2 ≤ ref_count d < 2 ^ 64 →
  ∃ w', release handle w = Some (0, w')
        ∧ handles w' = handles w
        ∧ trace w' = trace w
        ∧ buffer_map w' =
            <[handle := mk_data (data_bases d) (data_alloc_sizes d) (ref_count d - 1)]>
              (buffer_map w)
        ∧ validator_accepts w' handle.
Proof.
  intros Hacc Hd Hrange.
  assert (wrap_u64 (ref_count d - 1) = ref_count d - 1) as Hwrap
    by (apply wrap_u64_small; lia).
  eexists. split.
  { apply (release_not_last w handle d Hacc Hd); [lia | rewrite Hwrap; lia]. }
  simpl. do 2 (split; [done|]). rewrite Hwrap. split; [done|].
  eapply (validator_accepts_recount w _ handle d); [done | done | done |].
  simpl. apply lookup_insert_eq.
Qed.

(** X11.  [retain] then [release] of a well formed handle that had no record
    both return 0 and leave the table as it was; the mapper is not called,
    and the only call outside is the [munmap] of the metadata when
    [attr_base] is not null. *)
Theorem retain_release_round_trip (w : World) (handle : addr) (hnd : private_handle_t) :
  handles w !! handle = Some hnd →
  well_formed hnd →
  well_formed (set_bases (fill (λ _, 0) 0 MAX_BUFFER_FDS (bases hnd)) hnd) →
  buffer_map w !! handle = None →
  ∃ w', run [Retain handle; Release handle] w = Some ([0; 0], w')
        ∧ buffer_map w' = buffer_map w
        ∧ trace w' =
            trace w ++ (if decide (attr_base hnd ≠ 0)
                        then [EvMunmap (attr_base hnd) (attr_size hnd)] else []).
Proof.
  intros Hh Hwf Hwf0 Hnone.
  set (hnd0 := set_bases (fill (λ _, 0) 0 MAX_BUFFER_FDS (bases hnd)) hnd) in *.
  set (w1 := mk_world (<[handle := hnd0]> (handles w))
                      (<[handle := set_ref_count 1 new_MappedData]> (buffer_map w))
                      (trace w)).
  assert (retain handle w = Some (0, w1)) as Hretain by by apply retain_fresh.
  assert (¬ record_mapped (set_ref_count 1 new_MappedData)) as Hm.
  { unfold record_mapped. simpl. rewrite aget_replicate_zero. by intros ?. }
  assert (validator_accepts w1 handle) as Hacc.
  { exists hnd0, (set_ref_count 1 new_MappedData).
    split; [apply lookup_insert_eq|]. split; [done|].
    split; [apply lookup_insert_eq|]. split; [by intros ?|].
    intros _ i Hi. split; [by apply fill_zero | apply aget_replicate_zero]. }
  destruct (release_teardown w1 handle hnd0 (set_ref_count 1 new_MappedData) Hacc)
    as (w2 & hnd2 & Hrel & Hbm & Htr & _);
    [apply lookup_insert_eq | apply lookup_insert_eq | done | done |].
  exists w2. split.
  { simpl. unfold bind at 1. rewrite Hretain.
    unfold bind at 1. unfold bind at 1. rewrite Hrel. done. }
  split.
  { rewrite Hbm. simpl. rewrite delete_insert_eq. by apply delete_id. }
  rewrite Htr. rewrite decide_False by exact Hm. done.
Qed.

(** X12.  After the [release] that erases the record, the handle is refused:
    [validate], [map] and a further [release] return [-EINVAL] and change
    nothing. *)
Theorem released_then_refused (w : World) (handle : addr) (hnd : private_handle_t)
    (d : MappedData) :
  validator_accepts w handle →
  handles w !! handle = Some hnd →
  buffer_map w !! handle = Some d →
  ref_count d = 1 →
  ∃ w', release handle w = Some (0, w')
        ∧ validate handle w' = Some (- EINVAL, w')
        ∧ map handle w' = Some (- EINVAL, w')
        ∧ release handle w' = Some (- EINVAL, w').
Proof.
  intros Hacc Hh Hd Hone.
  destruct (release_teardown w handle hnd d Hacc Hh Hd) as (w' & _ & Hrel & Hbm & _);
    [rewrite Hone; done | rewrite Hone; done |].
  exists w'. split; [exact Hrel|].
  assert (¬ validator_accepts w' handle) as Hrej.
  { intros (? & d' & _ & _ & Hd' & _). by rewrite Hbm, lookup_delete_eq in Hd'. }
  split; [by apply validate_locked_rejects|].
  split; [by apply map_not_validated | by apply release_not_validated].
Qed.

(** X13.  In every state reached from an empty table by fewer than [2^64]
    calls, the count of every record is at least 1 and below [2^64]: the
    branches that [retain], [map_locked] and [release] have for a record
    whose count is 0 are not reached. *)
Theorem reachable_counts_positive (ops : list op) (w w' : World) (rs : list Z) :
  buffer_map w = ∅ →
  run ops w = Some (rs, w') →
  Z.of_nat (length ops) < 2 ^ 64 →
  ∀ h d, buffer_map w' !! h = Some d → 1 ≤ ref_count d < 2 ^ 64.
Proof.
  intros Hempty Hrun Hlen h d Hd.
  assert (counted w h) as Hc by (unfold counted; by rewrite Hempty, lookup_empty).
  assert (refs w h = 0) as Hzero by (unfold refs; by rewrite Hempty, lookup_empty).
  pose proof (successes_le_length (Retain h) ops rs) as Hle.
  destruct (run_refs ops w w' h rs Hrun Hc ltac:(lia)) as [Hc' _].
  unfold counted in Hc'. by rewrite Hd in Hc'.
Qed.

End Composition.

(** X6 on the demonstration platform: the first [map] of a handle retained
    once. *)
Lemma map_success_mirrors_witness :
  ∃ hnd' d',
    handles Demo.w_after_map !! Demo.h = Some hnd'
    ∧ buffer_map Demo.w_after_map !! Demo.h = Some d'
    ∧ ref_count d' = 1
    ∧ (∀ i : nat, (i < 3)%nat → slot_matches hnd' d' i)
    ∧ fds hnd' = [10; 11; -1; -1] ∧ fd_count hnd' = 1
    ∧ alloc_sizes hnd' = [4096; 0; 0] ∧ attr_size hnd' = 4096
    ∧ attr_base hnd' = 0
    ∧ ion_map_calls Demo.h (trace Demo.w_after_map)
      = S (ion_map_calls Demo.h (trace (Demo.registered 1))).
Proof.
  apply (map_success_mirrors (P := Demo.platform) (Demo.registered 1) Demo.w_after_map
           Demo.h (set_bases [0; 0; 0] Demo.H) (mk_data [0; 0; 0] [0; 0; 0] 1)).
  - reflexivity.
  - reflexivity.
  - intros Hm. apply Hm. reflexivity.
  - reflexivity.
  - reflexivity.
  - vm_compute. reflexivity.
Defined.

Lemma demo_nomem_registered_accepted :
  validator_accepts (P := Demo.platform_nomem) (Demo.registered 1) Demo.h.
Proof.
  apply (validate_locked_ok (P := Demo.platform_nomem)
           (Demo.registered 1) (Demo.registered 1) Demo.h).
  vm_compute. reflexivity.
Qed.

(** X7 on a platform whose mapper fails with -12 after it has written the
    first slot. *)
Lemma map_mapper_failure_witness :
  ∃ w', map (P := Demo.platform_nomem) Demo.h (Demo.registered 1) = Some (-12, w')
        ∧ buffer_map w' = buffer_map (Demo.registered 1)
        ∧ (bases <$> handles w' !! Demo.h) = Some [1048576; 0; 0].
Proof.
  eexists. split.
  - apply (map_mapper_failure (P := Demo.platform_nomem) (Demo.registered 1) Demo.w_checked
             Demo.h (set_bases [0; 0; 0] Demo.H) (mk_data [0; 0; 0] [0; 0; 0] 1)).
    + exact demo_nomem_registered_accepted.
    + reflexivity.
    + reflexivity.
    + intros Hm. apply Hm. reflexivity.
    + vm_compute. reflexivity.
    + vm_compute. discriminate.
  - split; reflexivity.
Defined.

(** X8 on the same platform. *)
Lemma map_failure_blocks_handle_witness :
  ∃ w', map (P := Demo.platform_nomem) Demo.h (Demo.registered 1) = Some (-12, w')
        ∧ validate (P := Demo.platform_nomem) Demo.h w' = Some (- EINVAL, w')
        ∧ map (P := Demo.platform_nomem) Demo.h w' = Some (- EINVAL, w')
        ∧ release (P := Demo.platform_nomem) Demo.h w' = Some (- EINVAL, w').
Proof.
  apply (map_failure_blocks_handle (P := Demo.platform_nomem) (Demo.registered 1)
           Demo.w_checked Demo.h (set_bases [0; 0; 0] Demo.H)
           (mk_data [0; 0; 0] [0; 0; 0] 1) 0).
  - exact demo_nomem_registered_accepted.
  - reflexivity.
  - reflexivity.
  - intros Hm. apply Hm. reflexivity.
  - vm_compute. reflexivity.
  - vm_compute. discriminate.
  - simpl. lia.
  - vm_compute. discriminate.
Defined.

(** X9 on the demonstration platform: [retain] of a mapped handle whose
    scratch slot has been overwritten. *)
Lemma retain_registered_witness :
  ∃ w', retain (P := Demo.platform) Demo.h Demo.w_slot0 = Some (0, w')
        ∧ handles w' = handles Demo.w_slot0
        ∧ trace w' = trace Demo.w_slot0
        ∧ buffer_map w' =
            <[Demo.h := mk_data [7340032; 0; 0] [4096; 0; 0] (wrap_u64 (1 + 1))]>
              (buffer_map Demo.w_slot0)
        ∧ (validator_accepts (P := Demo.platform) Demo.w_slot0 Demo.h →
           validator_accepts (P := Demo.platform) w' Demo.h).
Proof.
  apply (retain_registered (P := Demo.platform) Demo.w_slot0 Demo.h
           (set_bases [4096; 0; 0] Demo.H) (mk_data [7340032; 0; 0] [4096; 0; 0] 1)).
  - reflexivity.
  - vm_compute. discriminate.
  - reflexivity.
Defined.

(** X10 on the demonstration platform: the first [release] of a handle
    retained twice. *)
Lemma release_keeps_mapping_witness :
  ∃ w', release (P := Demo.platform) Demo.h (Demo.registered 2) = Some (0, w')
        ∧ handles w' = handles (Demo.registered 2)
        ∧ trace w' = trace (Demo.registered 2)
        ∧ buffer_map w' =
            <[Demo.h := mk_data [0; 0; 0] [0; 0; 0] (2 - 1)]> (buffer_map (Demo.registered 2))
        ∧ validator_accepts (P := Demo.platform) w' Demo.h.
Proof.
  apply (release_keeps_mapping (P := Demo.platform) (Demo.registered 2) Demo.h
           (mk_data [0; 0; 0] [0; 0; 0] 2)).
  - apply (validate_locked_ok (P := Demo.platform)
             (Demo.registered 2) (Demo.registered 2) Demo.h).
    vm_compute. reflexivity.
  - reflexivity.
  - vm_compute. split; [discriminate | reflexivity].
Defined.

(** X11 on the demonstration platform. *)
Lemma retain_release_round_trip_witness :
  ∃ w', run (P := Demo.platform) [Retain Demo.h; Release Demo.h] Demo.w0
        = Some ([0; 0], w')
        ∧ buffer_map w' = buffer_map Demo.w0
        ∧ trace w' = trace Demo.w0 ++ [].
Proof.
  apply (retain_release_round_trip (P := Demo.platform) Demo.w0 Demo.h Demo.H).
  - reflexivity.
  - vm_compute. discriminate.
  - vm_compute. discriminate.
  - reflexivity.
Defined.

(** X12 on the demonstration platform: after the only reference of a mapped
    handle is given back. *)
Lemma released_then_refused_witness :
  ∃ w', release (P := Demo.platform) Demo.h Demo.w_mapped = Some (0, w')
        ∧ validate (P := Demo.platform) Demo.h w' = Some (- EINVAL, w')
        ∧ map (P := Demo.platform) Demo.h w' = Some (- EINVAL, w')
        ∧ release (P := Demo.platform) Demo.h w' = Some (- EINVAL, w').
Proof.
  apply (released_then_refused (P := Demo.platform) Demo.w_mapped Demo.h
           Demo.H_mapped (mk_data [1048576; 0; 0] [4096; 0; 0] 1)).
  - apply (validate_locked_ok (P := Demo.platform) Demo.w_mapped Demo.w_mapped Demo.h).
    vm_compute. reflexivity.
  - reflexivity.
  - reflexivity.
  - reflexivity.
Defined.

(** X13 on the demonstration platform: retain, retain, release. *)
Lemma reachable_counts_positive_witness :
  1 ≤ ref_count (mk_data [0; 0; 0] [0; 0; 0] 1) < 2 ^ 64.
Proof.
  apply (reachable_counts_positive (P := Demo.platform)
           [Retain Demo.h; Retain Demo.h; Release Demo.h] Demo.w0 (Demo.registered 1)
           [0; 0; 0] eq_refl) with (h := Demo.h).
  - vm_compute. reflexivity.
  - vm_compute. reflexivity.
  - reflexivity.
Defined.

(* ===================================================================== *)
(** ** Further properties of the sanity check *)

Lemma find_from_spec (a : list Z) (x : Z) (n from : nat) :
  (from ≤ find_from a x from n ≤ from + n)%nat
  ∧ (∀ i : nat, (from ≤ i < find_from a x from n)%nat → aget a i ≠ x)
  ∧ ((find_from a x from n < from + n)%nat → aget a (find_from a x from n) = x).
Proof.
  revert from. induction n as [|n IH]; intros from; simpl.
  - split; [lia|]. split; [intros i Hi; lia | lia].
  - destruct (decide (aget a from = x)) as [Heq|Hne].
    + split; [lia|]. split; [intros i Hi; lia | done].
    + destruct (IH (S from)) as (Hbounds & Hbefore & Hat).
      split; [lia|]. split.
      * intros i Hi. destruct (decide (i = from)) as [->|]; [done | apply Hbefore; lia].
      * intros Hlt. apply Hat. lia.
Qed.

Lemma mod_second_period (z : Z) : 2 ^ 64 ≤ z < 2 * 2 ^ 64 → z mod 2 ^ 64 = z - 2 ^ 64.
Proof.
  intros Hz. symmetry. apply (Z.mod_unique z (2 ^ 64) 1); lia.
Qed.

Section SanityFurther.
Context `{P : Platform}.

(** X14.  A handle that the sanity check accepts has [fd_count] between -1
    and [MAX_FDS - 1]; the descriptors it has read, [fds[0]] to
    [fds[fd_count]], lie in the first [MAX_FDS] slots and none is the
    sentinel; and the slot behind them, when there is one, holds the
    sentinel. *)
Theorem sanity_reads_in_bounds (w w' : World) (handle : addr) (hnd : private_handle_t) :
  handles w !! handle = Some hnd →
  dmabuf_sanity_check handle w = Some (true, w') →
  -1 ≤ fd_count hnd ≤ Z.of_nat MAX_FDS - 1
  ∧ (∀ i : nat, Z.of_nat i ≤ fd_count hnd → (i < MAX_FDS)%nat ∧ aget (fds hnd) i ≠ -1)
  ∧ (fd_count hnd + 1 < Z.of_nat MAX_FDS →
     aget (fds hnd) (Z.to_nat (fd_count hnd + 1)) = -1).
Proof.
  intros Hh Hrun.
  destruct (dmabuf_sanity_check_run w handle hnd Hh) as (w1 & Hrun1 & _).
  rewrite Hrun1 in Hrun. injection Hrun as Hb _.
  apply andb_true_iff in Hb as [Hb _]. apply andb_true_iff in Hb as [Hcount _].
  apply bool_decide_eq_true in Hcount. unfold sentinel_prefix, std_find in Hcount.
  destruct (find_from_spec (fds hnd) (-1) MAX_FDS 0) as (Hbounds & Hbefore & Hat).
  split; [lia|]. split.
  - intros i Hi. split; [lia | apply Hbefore; lia].
  - intros Hlt.
    replace (Z.to_nat (fd_count hnd + 1)) with (find_from (fds hnd) (-1) 0 MAX_FDS) by lia.
    apply Hat. lia.
Qed.

(** X15.  A descriptor whose length [lseek] cannot tell passes for any
    advertised size: a handle with the right number of descriptors, none of
    which can be measured, is accepted whatever its [alloc_sizes] and
    [attr_size]. *)
Theorem unmeasured_descriptors_accepted (w : World) (handle : addr)
    (hnd : private_handle_t) :
  handles w !! handle = Some hnd →
  fd_count hnd = sentinel_prefix hnd - 1 →
  (∀ i : nat, Z.of_nat i < fd_count hnd →
     lseek_result (aget (fds hnd) i) 0 SEEK_END = -1) →
  lseek_result (get_share_attr_fd hnd) 0 SEEK_END = -1 →
  ∃ w', dmabuf_sanity_check handle w = Some (true, w').
Proof.
  intros Hh Hcount Hclient Hmeta.
  destruct (dmabuf_sanity_check_run w handle hnd Hh) as (w1 & Hrun & _).
  exists w1. rewrite Hrun. f_equal. f_equal.
  rewrite !andb_true_iff, bool_decide_eq_true, all_from_spec.
  split; [split; [done|] |].
  - intros i Hi. rewrite Hclient by lia. done.
  - rewrite Hmeta. done.
Qed.

(** X16.  For an advertised size of [2^63] or more, which the cast to [off_t]
    makes negative, [check_pid] accepts a descriptor of length [s ≥ 0] exactly
    when [s + (2^64 − size) ≤ PAGE_SIZE]: a descriptor shorter than a page
    passes for a size within a page of [2^64]. *)
Theorem check_pid_large_size (fd allocated_size : Z) (w : World) :
  2 ^ 63 ≤ allocated_size < 2 ^ 64 →
  0 ≤ lseek_result fd 0 SEEK_END < 2 ^ 63 →
  0 ≤ PAGE_SIZE < 2 ^ 63 →
  ∃ b w', check_pid fd allocated_size w = Some (b, w')
          ∧ (b = true ↔ lseek_result fd 0 SEEK_END + (2 ^ 64 - allocated_size) ≤ PAGE_SIZE).
Proof.
  intros Ha Hs Hp.
  destruct (check_pid_run fd allocated_size w) as (w' & Hrun & _).
  eexists _, w'. split; [exact Hrun|].
  unfold size_accepted.
  assert (wrap_s64 allocated_size = allocated_size - 2 ^ 64) as ->.
  { unfold wrap_s64. rewrite mod_second_period; lia. }
  set (s := lseek_result fd 0 SEEK_END) in *.
  rewrite negb_true_iff, andb_false_iff, orb_false_iff, bool_decide_eq_false, !Z.ltb_ge.
  destruct (decide (s - (allocated_size - 2 ^ 64) < 2 ^ 63)) as [Hsmall|Hbig].
  - rewrite wrap_s64_small by lia. lia.
  - assert (wrap_s64 (s - (allocated_size - 2 ^ 64)) = s - allocated_size) as ->.
    { unfold wrap_s64. rewrite mod_second_period; lia. }
    lia.
Qed.

End SanityFurther.

(** X14 on the demonstration platform. *)
Lemma sanity_reads_in_bounds_witness :
  -1 ≤ fd_count Demo.H ≤ Z.of_nat 4 - 1
  ∧ (∀ i : nat, Z.of_nat i ≤ fd_count Demo.H → (i < 4)%nat ∧ aget (fds Demo.H) i ≠ -1)
  ∧ (fd_count Demo.H + 1 < Z.of_nat 4 →
     aget (fds Demo.H) (Z.to_nat (fd_count Demo.H + 1)) = -1).
Proof.
  apply (sanity_reads_in_bounds (P := Demo.platform) Demo.w0 Demo.w_checked_w0
           Demo.h Demo.H).
  - reflexivity.
  - vm_compute. reflexivity.
Defined.

(** X15 on the demonstration platform: descriptors 20 and 21 are not open. *)
Lemma unmeasured_descriptors_accepted_witness :
  ∃ w', dmabuf_sanity_check (P := Demo.platform) Demo.h Demo.w_closed = Some (true, w').
Proof.
  apply (unmeasured_descriptors_accepted (P := Demo.platform) Demo.w_closed Demo.h
           Demo.H_closed).
  - reflexivity.
  - reflexivity.
  - intros i Hi. simpl in Hi. assert (i = 0%nat) as -> by lia. reflexivity.
  - reflexivity.
Defined.

(** X16 on the demonstration platform: the empty descriptor 13 and an
    advertised size of [2^64 - 4096]. *)
Lemma check_pid_large_size_witness :
  ∃ b w', check_pid (P := Demo.platform) 13 (2 ^ 64 - 4096) Demo.w0 = Some (b, w')
          ∧ (b = true ↔ 0 + (2 ^ 64 - (2 ^ 64 - 4096)) ≤ 4096).
Proof.
  apply (check_pid_large_size (P := Demo.platform) 13 (2 ^ 64 - 4096) Demo.w0).
  - vm_compute. split; [discriminate | reflexivity].
  - vm_compute. split; [discriminate | reflexivity].
  - vm_compute. split; [discriminate | reflexivity].
Defined.

(* ===================================================================== *)
(** ** [map] then [validate] *)

Section MapValidate.
Context `{P : Platform}.

(** X17.  When the handle's own check does not read the scratch slots and
    the arrays of the records have [MAX_BUFFER_FDS] slots, a [map] that
    returns 0 and leaves the record mapped is followed by a [validate] that
    returns 0: what [map_locked] copies into the record is what
    [validate_locked] compares. *)
Theorem map_then_validate (w0 w : World) (handle : addr) (d : MappedData) :
  records_laid_out w0 →
  validate_ignores_bases →
  map handle w0 = Some (0, w) →
  buffer_map w !! handle = Some d →
  record_mapped d →
  validate handle w = Some (0, w).
Proof.
  intros Hlay Hign Hmap Hd Hm.
  apply validate_locked_accepts.
  destruct (validate_locked_run w0 handle) as (r0 & Hrun & [->| ->] & Hr).
  2:{ unfold map, bind in Hmap. rewrite Hrun in Hmap. simpl in Hmap.
      injection Hmap as Hbad _. unfold EINVAL in Hbad. lia. }
  assert (validator_accepts w0 handle) as Hacc by by apply Hr.
  rewrite (map_validated _ _ Hacc) in Hmap.
  pose proof Hacc as (hnd & d0 & Hh & Hwf & Hd0 & _).
  destruct (decide (record_mapped d0)) as [Hm0|Hm0].
  { rewrite (map_locked_mapped _ _ _ Hd0 Hm0) in Hmap. by injection Hmap as <-. }
  destruct (map_locked_unmapped w0 handle hnd d0 Hh Hd0 Hm0) as (b & w1 & _ & _ & Hrun1).
  rewrite Hrun1 in Hmap. destruct b; [|injection Hmap as Hbad _; unfold EINVAL in Hbad; lia].
  injection Hmap as Hzero <-. simpl in Hd.
  rewrite decide_False in Hd by (rewrite Hzero; by intros ?).
  rewrite lookup_insert_eq in Hd. injection Hd as <-.
  destruct (Hlay handle d0 Hd0) as [Hlb Hla].
  eexists _, _. split; [apply lookup_insert_eq|].
  split; [unfold well_formed; by rewrite Hign|].
  split; [simpl; rewrite decide_False by (rewrite Hzero; by intros ?); apply lookup_insert_eq|].
  split; [|by intros Hn; destruct Hn].
  intros _ i Hi. unfold slot_matches. simpl.
  by rewrite !fill_whole.
Qed.

End MapValidate.

Lemma demo_registered_laid_out (c : Z) : records_laid_out (P := Demo.platform) (Demo.registered c).
Proof.
  intros h d. unfold Demo.registered. simpl. intros Hd.
  apply lookup_singleton_Some in Hd as [_ <-]. done.
Qed.

(** X17 on the demonstration platform. *)
Lemma map_then_validate_witness :
  validate (P := Demo.platform) Demo.h Demo.w_after_map = Some (0, Demo.w_after_map).
Proof.
  apply (map_then_validate (P := Demo.platform) (Demo.registered 1) Demo.w_after_map Demo.h
           (mk_data [7340032; 0; 0] [4096; 0; 0] 1)).
  - exact (demo_registered_laid_out 1).
  - intros hnd b. reflexivity.
  - vm_compute. reflexivity.
  - reflexivity.
  - vm_compute. discriminate.
Defined.
